(** * Type serialization and the tracing executor of TensorFlow Federated

    A shallow embedding of
    - [core/impl/executors/executor_test_utils.py]: the [TracingExecutor]
      decorator, its [TracingExecutorValue] handles and the dummy
      computations built for executor tests;
    - the type serialization layer exercised by
      [core/impl/serialization_test.py].

    Python integers are [Z], [None]-able arguments are [option], exceptions
    are the left summand of [exn + A], and every object the code mutates is
    threaded explicitly through a small state-and-exception monad. *)

From Stdlib Require Import ZArith List String Ascii Bool Lia Sorted.
Import ListNotations.
Open Scope string_scope.
Open Scope list_scope.
Open Scope Z_scope.

Set Implicit Arguments.
Set Warnings "-register-all".

(** ** Exceptions *)

(** The error kinds of the executor and serialization contracts; any other
    Python exception is [OtherError] with its class name. *)
Inductive exn : Type :=
| TypeMismatchError
| NotCallableError
| ArityError
| SelectionError
| ForeignHandleError
| ClosedExecutorError
| SerializationError
| OtherError (cls : string).

(** A call either raises ([inl]) or returns ([inr]). *)
Definition result (A : Type) : Type := (exn + A)%type.

Definition raise {A : Type} (e : exn) : result A := inl e.
Definition ok {A : Type} (a : A) : result A := inr a.

(** ** Types ([computation_types]) *)

(** The tensor element types, in the order of the [DataType] enum of the
    tensor runtime; [DT_INT32], [DT_STRING], [DT_FLOAT], [DT_BOOL] and
    [DT_INT64] are the ones the tests use. *)
Inductive DataType : Type :=
| DT_FLOAT | DT_DOUBLE | DT_INT32 | DT_UINT8 | DT_INT16
| DT_INT8 | DT_STRING | DT_COMPLEX64 | DT_INT64 | DT_BOOL.

Definition DataType_eqb (a b : DataType) : bool :=
  match a, b with
  | DT_FLOAT, DT_FLOAT | DT_DOUBLE, DT_DOUBLE | DT_INT32, DT_INT32
  | DT_UINT8, DT_UINT8 | DT_INT16, DT_INT16 | DT_INT8, DT_INT8
  | DT_STRING, DT_STRING | DT_COMPLEX64, DT_COMPLEX64
  | DT_INT64, DT_INT64 | DT_BOOL, DT_BOOL => true
  | _, _ => false
  end.

(** A dimension of a tensor shape: a size, or [None] when undefined. *)
Definition Dimension : Type := option Z.

(** Modelled from the spec: the in-memory [Type] of [computation_types]
    (spec, data model), whose module is not part of the sources at hand: a
    tensor (dtype and shape), a sequence, a named tuple (ordered fields, each
    optionally named) or a function (optional parameter, result). *)
Inductive Type_ : Type :=
| TensorType (dtype : DataType) (shape : list Dimension)
| SequenceType (element : Type_)
| NamedTupleType (elements : list (option string * Type_))
| FunctionType (parameter : option Type_) (result_type : Type_).

(** The tensor runtime refuses a negative dimension size, so the Types that
    can be constructed are those whose every defined dimension is
    non-negative. *)
Definition dimension_ok (d : Dimension) : bool :=
  match d with
  | None => true
  | Some n => 0 <=? n
  end.

Fixpoint constructible (t : Type_) : bool :=
  match t with
  | TensorType _ shape => forallb dimension_ok shape
  | SequenceType element => constructible element
  | NamedTupleType elements =>
      (fix all (l : list (option string * Type_)) : bool :=
         match l with
         | [] => true
         | (_, e) :: l' => constructible e && all l'
         end) elements
  | FunctionType parameter result_type =>
      match parameter with
      | None => true
      | Some p => constructible p
      end && constructible result_type
  end.

(** Structural induction that reaches the elements of a named tuple. *)
Section Type_induction.
Variable P : Type_ -> Prop.
Hypothesis H_tensor : forall dtype shape, P (TensorType dtype shape).
Hypothesis H_sequence : forall element, P element -> P (SequenceType element).
Hypothesis H_tuple : forall elements,
    Forall (fun ne => P (snd ne)) elements -> P (NamedTupleType elements).
Hypothesis H_fun_none : forall r, P r -> P (FunctionType None r).
Hypothesis H_fun_some : forall p r, P p -> P r -> P (FunctionType (Some p) r).

Fixpoint Type_nested_ind (t : Type_) : P t :=
  match t with
  | TensorType dtype shape => H_tensor dtype shape
  | SequenceType element => H_sequence (Type_nested_ind element)
  | NamedTupleType elements =>
      H_tuple
        ((fix go (l : list (option string * Type_))
            : Forall (fun ne => P (snd ne)) l :=
            match l with
            | [] => Forall_nil _
            | ne :: l' => Forall_cons ne (Type_nested_ind (snd ne)) (go l')
            end) elements)
  | FunctionType None r => H_fun_none (Type_nested_ind r)
  | FunctionType (Some p) r =>
      H_fun_some (Type_nested_ind p) (Type_nested_ind r)
  end.
End Type_induction.

(** ** The wire format ([computation.proto]) *)

(** Modelled from the spec: the wire message [pb.Type] (spec, external
    interfaces): a oneof over tensor, sequence, tuple and function, where the
    tensor variant carries the dtype enum and the list of dimension sizes
    ([-1] for unknown). [pb_unset] is the message whose oneof is not set,
    which is also how an absent sub-message reads. *)
Inductive pb_Type : Type :=
| pb_unset
| pb_tensor (dtype : DataType) (dim_sizes : list Z)
| pb_sequence (element : pb_Type)
| pb_tuple (element : list (option string * pb_Type))
| pb_function (parameter : option pb_Type) (result_msg : pb_Type).

Definition serialize_dimension (d : Dimension) : Z :=
  match d with
  | None => -1
  | Some n => n
  end.

(** Modelled from the spec: [type_serialization.serialize_type] (spec 4.4),
    absent from the sources: the structural, recursive encoding. *)
Fixpoint serialize_type (t : Type_) : pb_Type :=
  match t with
  | TensorType dtype shape => pb_tensor dtype (map serialize_dimension shape)
  | SequenceType element => pb_sequence (serialize_type element)
  | NamedTupleType elements =>
      pb_tuple
        ((fix each (l : list (option string * Type_))
            : list (option string * pb_Type) :=
            match l with
            | [] => []
            | (name, e) :: l' => (name, serialize_type e) :: each l'
            end) elements)
  | FunctionType parameter result_type =>
      pb_function
        (match parameter with
         | None => None
         | Some p => Some (serialize_type p)
         end)
        (serialize_type result_type)
  end.

Definition deserialize_dimension (size : Z) : result Dimension :=
  if size =? -1 then ok None
  else if 0 <=? size then ok (Some size)
  else raise SerializationError.

Fixpoint deserialize_shape (sizes : list Z) : result (list Dimension) :=
  match sizes with
  | [] => ok []
  | size :: rest =>
      match deserialize_dimension size with
      | inl e => inl e
      | inr d =>
          match deserialize_shape rest with
          | inl e => inl e
          | inr ds => ok (d :: ds)
          end
      end
  end.

(** Modelled from the spec: [type_serialization.deserialize_type] (spec 4.4),
    absent from the sources: the structural inverse, failing with
    [SerializationError] on a message whose oneof is unset or whose shape is
    inconsistent. *)
Fixpoint deserialize_type (p : pb_Type) : result Type_ :=
  match p with
  | pb_unset => raise SerializationError
  | pb_tensor dtype dim_sizes =>
      match deserialize_shape dim_sizes with
      | inl e => inl e
      | inr shape => ok (TensorType dtype shape)
      end
  | pb_sequence element =>
      match deserialize_type element with
      | inl e => inl e
      | inr t => ok (SequenceType t)
      end
  | pb_tuple element =>
      match
        (fix each (l : list (option string * pb_Type))
           : result (list (option string * Type_)) :=
           match l with
           | [] => ok []
           | (name, m) :: l' =>
               match deserialize_type m with
               | inl e => inl e
               | inr t =>
                   match each l' with
                   | inl e => inl e
                   | inr ts => ok ((name, t) :: ts)
                   end
               end
           end) element
      with
      | inl e => inl e
      | inr ts => ok (NamedTupleType ts)
      end
  | pb_function parameter result_msg =>
      match
        match parameter with
        | None => ok None
        | Some m =>
            match deserialize_type m with
            | inl e => inl e
            | inr t => ok (Some t)
            end
        end
      with
      | inl e => inl e
      | inr param =>
          match deserialize_type result_msg with
          | inl e => inl e
          | inr r => ok (FunctionType param r)
          end
      end
  end.

(** ** Assignability *)

Definition option_string_eqb (a b : option string) : bool :=
  match a, b with
  | None, None => true
  | Some x, Some y => String.eqb x y
  | _, _ => false
  end.

(** A dimension accepts another when it is undefined or they are equal. *)
Definition dimension_accepts (mine theirs : Dimension) : bool :=
  match mine, theirs with
  | None, _ => true
  | Some a, Some b => a =? b
  | Some _, None => false
  end.

Fixpoint shape_accepts (mine theirs : list Dimension) : bool :=
  match mine, theirs with
  | [], [] => true
  | a :: mine', b :: theirs' =>
      dimension_accepts a b && shape_accepts mine' theirs'
  | _, _ => false
  end.

(** Modelled from the spec: [Type.is_assignable_from] (spec, data model),
    absent from the sources. The function case calls the method of the
    other type's parameter on this type's parameter (contravariance), so
    both directions are computed together, by recursion on [self]:
    [assignable_both self other] is the pair
    [(self.is_assignable_from(other), other.is_assignable_from(self))]. *)
Fixpoint assignable_both (self other : Type_) : bool * bool :=
  match self, other with
  | TensorType d1 s1, TensorType d2 s2 =>
      (DataType_eqb d1 d2 && shape_accepts s1 s2,
       DataType_eqb d2 d1 && shape_accepts s2 s1)
  | SequenceType e1, SequenceType e2 => assignable_both e1 e2
  | NamedTupleType l1, NamedTupleType l2 =>
      (fix each (l1 l2 : list (option string * Type_)) : bool * bool :=
         match l1, l2 with
         | [], [] => (true, true)
         | (n1, e1) :: l1', (n2, e2) :: l2' =>
             let here := assignable_both e1 e2 in
             let rest := each l1' l2' in
             (option_string_eqb n1 n2 && fst here && fst rest,
              option_string_eqb n2 n1 && snd here && snd rest)
         | _, _ => (false, false)
         end) l1 l2
  | FunctionType p1 r1, FunctionType p2 r2 =>
      let params :=
        match p1, p2 with
        | None, None => (true, true)
        | Some a, Some b => assignable_both a b
        | _, _ => (false, false)
        end in
      let results := assignable_both r1 r2 in
      (snd params && fst results, fst params && snd results)
  | _, _ => (false, false)
  end.

Definition is_assignable_from (self other : Type_) : bool :=
  fst (assignable_both self other).

(** ** Computations on the wire *)

(** Modelled from the spec: the binding of a backend fragment (spec, external
    interfaces): which named tensor, iterator handle or tuple of those stands
    for a parameter or a result. *)
Inductive pb_Binding : Type :=
| pb_tensor_binding (tensor_name : string)
| pb_sequence_binding (iterator_string_handle_name : string)
| pb_tuple_binding (element : list pb_Binding).

(** The backend fragment: opaque graph bytes and its bindings. *)
Record pb_TensorFlow (GraphDef : Type) : Type := {
  graph_def : GraphDef;
  parameter_binding : option pb_Binding;
  result_binding : pb_Binding
}.

(** [pb.Computation]: the serialized type and the oneof [computation]. *)
Inductive pb_Computation (GraphDef : Type) : Type :=
| pb_computation (type : pb_Type) (computation : pb_body GraphDef)
with pb_body (GraphDef : Type) : Type :=
| pb_reference (name : string)
| pb_lambda (parameter_name : string) (result_comp : pb_Computation GraphDef)
| pb_tensorflow (tensorflow : pb_TensorFlow GraphDef).

Arguments pb_reference {GraphDef} name.

Definition computation_type {G : Type} (c : pb_Computation G) : pb_Type :=
  match c with pb_computation type _ => type end.

Definition computation_body {G : Type} (c : pb_Computation G) : pb_body G :=
  match c with pb_computation _ body => body end.

(** What a Python function handed to the graph builder returned: a tensor of
    the graph, or a (possibly empty, possibly named) structure of results. *)
Inductive GraphResult : Type :=
| graph_tensor (dtype : DataType) (shape : list Dimension) (tensor_name : string)
| graph_structure (elements : list (option string * GraphResult)).

(** Modelled from the spec: [tensorflow_utils.capture_result_from_graph],
    absent from the sources: the declared type of a result and the binding
    of its tensors, element by element, in order. *)
Fixpoint capture_result_from_graph (r : GraphResult) : Type_ * pb_Binding :=
  match r with
  | graph_tensor dtype shape tensor_name =>
      (TensorType dtype shape, pb_tensor_binding tensor_name)
  | graph_structure elements =>
      let captured :=
        (fix each (l : list (option string * GraphResult))
           : list (option string * Type_) * list pb_Binding :=
           match l with
           | [] => ([], [])
           | (name, e) :: l' =>
               let (t, b) := capture_result_from_graph e in
               let (ts, bs) := each l' in
               ((name, t) :: ts, b :: bs)
           end) elements in
      (NamedTupleType (fst captured), pb_tuple_binding (snd captured))
  end.

(** Modelled from the spec: [type_factory.unary_op], absent from the
    sources: the type [(t -> t)], as the docstring of
    [create_dummy_identity_lambda_computation] gives it. *)
Definition unary_op (type_spec : Type_) : Type_ :=
  FunctionType (Some type_spec) type_spec.

(** [create_dummy_identity_lambda_computation]. *)
Definition create_dummy_identity_lambda_computation
    {G : Type} (type_spec : Type_) : pb_Computation G :=
  let type_signature := serialize_type (unary_op type_spec) in
  let result := pb_computation (serialize_type type_spec) (pb_reference "a") in
  let fn := pb_lambda "a" result in
  pb_computation type_signature fn.

(** [create_dummy_empty_tensorflow_computation]; [packed_graph_def] is
    [serialization_utils.pack_graph_def(graph.as_graph_def())] for the empty
    graph, whose bytes belong to the tensor runtime. *)
Definition create_dummy_empty_tensorflow_computation
    {G : Type} (packed_graph_def : G) : pb_Computation G :=
  let (result_type, result_binding) :=
    capture_result_from_graph (graph_structure []) in
  let function_type := FunctionType None result_type in
  let type_signature := serialize_type function_type in
  let tensorflow :=
    {| graph_def := packed_graph_def;
       parameter_binding := None;
       result_binding := result_binding |} in
  pb_computation type_signature (pb_tensorflow tensorflow).

(** ** A state-and-exception monad *)

(** A method of an object with state [S]: it returns the object's new state
    and either raises or returns. *)
Definition M (S A : Type) : Type := S -> S * result A.

Definition ret {S A : Type} (a : A) : M S A := fun s => (s, inr a).

Definition throw {S A : Type} (e : exn) : M S A := fun s => (s, inl e).

Definition bind {S A B : Type} (m : M S A) (k : A -> M S B) : M S B :=
  fun s =>
    match m s with
    | (s', inl e) => (s', inl e)
    | (s', inr a) => k a s'
    end.

Notation "x <- m ;; k" := (bind m (fun x => k))
  (at level 61, m at next level, right associativity).
Notation "m ;;; k" := (bind m (fun _ => k))
  (at level 61, right associativity).

(** ** The executor interface ([executor_base.Executor]) *)

(** The abstract base class: [V] are the raw values, [R] the materialized
    results, [X] the state of the executor object and [H] its handles
    ([executor_value_base.ExecutorValue]); [compute] is the method of the
    handle, run against the executor that owns it. *)
Class Executor (V R X H : Type) : Type := {
  create_value : V -> option Type_ -> M X H;
  create_call : H -> option H -> M X H;
  create_tuple : list (option string * H) -> M X H;
  create_selection : H -> option Z -> option string -> M X H;
  close : M X unit;
  compute : H -> M X R
}.

(** Modelled from the spec: [anonymous_tuple.map_structure], absent from the
    sources, on the ordered, optionally named elements handed to
    [create_tuple]: [fn] applied to every element, order and names kept. *)
Definition map_structure {A B : Type} (fn : A -> B)
    (structure : list (option string * A)) : list (option string * B) :=
  map (fun ne => (fst ne, fn (snd ne))) structure.

(** ** The tracing executor *)

(** One component of a trace entry. An entry is a Python tuple, here the
    list of its components: strings, integers, [None], the raw value and the
    type handed to [create_value], the structure of indices recorded by
    [create_tuple], the result of a [compute]. *)
Inductive item (V R : Type) : Type :=
| Str (s : string)
| Int (z : Z)
| PyNone
| Val (v : V)
| Spec (type_spec : Type_)
| Struct (indices : list (option string * Z))
| Res (r : R).

Arguments Str {V R} s.
Arguments Int {V R} z.
Arguments PyNone {V R}.
Arguments Val {V R} v.
Arguments Spec {V R} type_spec.
Arguments Struct {V R} indices.
Arguments Res {V R} r.

Definition entry (V R : Type) : Type := list (item V R).

(** The attributes of a [TracingExecutor] object. *)
Record TracingExecutor (V R X : Type) : Type := {
  _target : X;
  _last_used_index : Z;
  _trace : list (entry V R)
}.

(** A [TracingExecutorValue]; its [_owner] is a reference to the executor
    that made it, which is the state its [compute] runs against. *)
Record TracingExecutorValue (H : Type) : Type := {
  index : Z;
  value : H
}.

(** [TracingExecutor.__init__]. *)
Definition TracingExecutor_init {V R X : Type} (target : X)
    : TracingExecutor V R X :=
  {| _target := target; _last_used_index := 0; _trace := [] |}.

Section Tracing.
Context {V R X H : Type} {target_class : Executor V R X H}.

Local Abbreviation Self := (TracingExecutor V R X).

(** [await self._target.method(...)]: the call runs on the target object
    held by the wrapper; an exception it raises propagates. *)
Definition await {A : Type} (m : M X A) : M Self A :=
  fun self =>
    let (target', r) := m (_target self) in
    ({| _target := target';
        _last_used_index := _last_used_index self;
        _trace := _trace self |}, r).

Definition _get_new_value_index : M Self Z :=
  fun self =>
    let val_index := _last_used_index self + 1 in
    ({| _target := _target self;
        _last_used_index := val_index;
        _trace := _trace self |}, inr val_index).

(** [self._trace.append(entry)]. *)
Definition trace_append (e : entry V R) : M Self unit :=
  fun self =>
    ({| _target := _target self;
        _last_used_index := _last_used_index self;
        _trace := _trace self ++ [e] |}, inr tt).

Definition TracingExecutor_create_value (v : V) (type_spec : option Type_)
    : M Self (TracingExecutorValue H) :=
  target_val <- await (create_value v type_spec) ;;
  val_index <- _get_new_value_index ;;
  let wrapped_val := {| index := val_index; value := target_val |} in
  match type_spec with
  | Some t =>
      trace_append [Str "create_value"; Val v; Spec t; Int (index wrapped_val)]
  | None =>
      trace_append [Str "create_value"; Val v; Int (index wrapped_val)]
  end ;;;
  ret wrapped_val.

Definition TracingExecutor_create_call
    (comp : TracingExecutorValue H) (arg : option (TracingExecutorValue H))
    : M Self (TracingExecutorValue H) :=
  match arg with
  | Some a =>
      target_val <- await (create_call (value comp) (Some (value a))) ;;
      val_index <- _get_new_value_index ;;
      let wrapped_val := {| index := val_index; value := target_val |} in
      trace_append
        [Str "create_call"; Int (index comp); Int (index a);
         Int (index wrapped_val)] ;;;
      ret wrapped_val
  | None =>
      target_val <- await (create_call (value comp) None) ;;
      val_index <- _get_new_value_index ;;
      let wrapped_val := {| index := val_index; value := target_val |} in
      trace_append
        [Str "create_call"; Int (index comp); Int (index wrapped_val)] ;;;
      ret wrapped_val
  end.

Definition TracingExecutor_create_tuple
    (elements : list (option string * TracingExecutorValue H))
    : M Self (TracingExecutorValue H) :=
  target_val <-
    await (create_tuple (map_structure (fun x => value x) elements)) ;;
  val_index <- _get_new_value_index ;;
  let wrapped_val := {| index := val_index; value := target_val |} in
  trace_append
    [Str "create_tuple";
     Struct (map_structure (fun x => index x) elements);
     Int (index wrapped_val)] ;;;
  ret wrapped_val.

Definition TracingExecutor_close : M Self unit :=
  await close.

Definition TracingExecutor_create_selection
    (source : TracingExecutorValue H)
    (index_arg : option Z) (name : option string)
    : M Self (TracingExecutorValue H) :=
  target_val <- await (create_selection (value source) index_arg name) ;;
  val_index <- _get_new_value_index ;;
  let wrapped_val := {| index := val_index; value := target_val |} in
  trace_append
    [Str "create_selection"; Int (index source);
     match index_arg with
     | Some i => Int i
     | None => match name with Some n => Str n | None => PyNone end
     end;
     Int (index wrapped_val)] ;;;
  ret wrapped_val.

(** [TracingExecutorValue.compute], run against the owner. *)
Definition TracingExecutorValue_compute (self : TracingExecutorValue H)
    : M Self R :=
  r <- await (compute (value self)) ;;
  trace_append [Str "compute"; Int (index self); Res r] ;;;
  ret r.

(** The decorator implements the interface it wraps. *)
#[export] Instance TracingExecutor_Executor
    : Executor V R Self (TracingExecutorValue H) := {
  create_value := TracingExecutor_create_value;
  create_call := TracingExecutor_create_call;
  create_tuple := TracingExecutor_create_tuple;
  create_selection := TracingExecutor_create_selection;
  close := TracingExecutor_close;
  compute := TracingExecutorValue_compute
}.
End Tracing.

(** ** Sequences of calls *)

(** A call issued by a client of an executor, and what the client saw.
    [Compute h] is [h.compute()] on a handle [h] whose owner is the executor
    the calls are run against. *)
Inductive call (V H : Type) : Type :=
| Create_value (v : V) (type_spec : option Type_)
| Create_call (comp : H) (arg : option H)
| Create_tuple (elements : list (option string * H))
| Create_selection (source : H) (index_arg : option Z) (name : option string)
| Close
| Compute (h : H).

Arguments Create_value {V H} v type_spec.
Arguments Create_call {V H} comp arg.
Arguments Create_tuple {V H} elements.
Arguments Create_selection {V H} source index_arg name.
Arguments Close {V H}.
Arguments Compute {V H} h.

Inductive outcome (H R : Type) : Type :=
| Raised (e : exn)
| Returned (h : H)
| Done
| Computed (r : R).

Arguments Raised {H R} e.
Arguments Returned {H R} h.
Arguments Done {H R}.
Arguments Computed {H R} r.

Section Calls.
Context {V R X H : Type} {executor : Executor V R X H}.

Definition observe {A : Type} (m : M X A) (seen : A -> outcome H R)
    (x : X) : X * outcome H R :=
  match m x with
  | (x', inl e) => (x', Raised e)
  | (x', inr a) => (x', seen a)
  end.

Definition perform (c : call V H) : X -> X * outcome H R :=
  match c with
  | Create_value v type_spec => observe (create_value v type_spec) Returned
  | Create_call comp arg => observe (create_call comp arg) Returned
  | Create_tuple elements => observe (create_tuple elements) Returned
  | Create_selection source index_arg name =>
      observe (create_selection source index_arg name) Returned
  | Close => observe close (fun _ => Done)
  | Compute h => observe (compute h) Computed
  end.

(** The calls are issued one after the other, each awaited before the
    next, so that the order of the calls is also the order in which the
    awaited target calls complete. *)
Fixpoint run (calls : list (call V H)) (x : X) : X * list (outcome H R) :=
  match calls with
  | [] => (x, [])
  | c :: rest =>
      let (x1, o) := perform c x in
      let (x2, os) := run rest x1 in
      (x2, o :: os)
  end.

(** The four operations that make a handle. *)
Definition is_create (c : call V H) : bool :=
  match c with
  | Create_value _ _ | Create_call _ _ | Create_tuple _
  | Create_selection _ _ _ => true
  | Close | Compute _ => false
  end.

(** The handles a call takes as inputs. *)
Definition input_handles (c : call V H) : list H :=
  match c with
  | Create_value _ _ => []
  | Create_call comp None => [comp]
  | Create_call comp (Some a) => [comp; a]
  | Create_tuple elements => map snd elements
  | Create_selection source _ _ => [source]
  | Close => []
  | Compute h => [h]
  end.

(** The handles returned by a sequence of outcomes, in order. *)
Fixpoint returned_handles (outs : list (outcome H R)) : list H :=
  match outs with
  | [] => []
  | Returned h :: rest => h :: returned_handles rest
  | _ :: rest => returned_handles rest
  end.

(** The results materialized by a sequence of outcomes, in order. *)
Fixpoint computed_results (outs : list (outcome H R)) : list R :=
  match outs with
  | [] => []
  | Computed r :: rest => r :: computed_results rest
  | _ :: rest => computed_results rest
  end.
End Calls.

(** ** Reading a trace *)

Section Trace_reading.
Context {V R H : Type}.

Local Abbreviation Wrapped := (TracingExecutorValue H).

(** What a call and its outcome should leave in the trace: one entry with
    the operation name, the indices of the input handles (the literal value
    and type for [create_value]) and the index of the handle returned, for a
    create operation that returned; one entry with the index and the result
    for a [compute] that returned; nothing otherwise. *)
Definition recorded (c : call V Wrapped) (o : outcome Wrapped R)
    : list (entry V R) :=
  match c, o with
  | Create_value v (Some t), Returned w =>
      [[Str "create_value"; Val v; Spec t; Int (index w)]]
  | Create_value v None, Returned w =>
      [[Str "create_value"; Val v; Int (index w)]]
  | Create_call comp (Some a), Returned w =>
      [[Str "create_call"; Int (index comp); Int (index a); Int (index w)]]
  | Create_call comp None, Returned w =>
      [[Str "create_call"; Int (index comp); Int (index w)]]
  | Create_tuple elements, Returned w =>
      [[Str "create_tuple";
        Struct (map (fun ne => (fst ne, index (snd ne))) elements);
        Int (index w)]]
  | Create_selection source (Some i) _, Returned w =>
      [[Str "create_selection"; Int (index source); Int i; Int (index w)]]
  | Create_selection source None (Some n), Returned w =>
      [[Str "create_selection"; Int (index source); Str n; Int (index w)]]
  | Create_selection source None None, Returned w =>
      [[Str "create_selection"; Int (index source); PyNone; Int (index w)]]
  | Compute h, Computed r =>
      [[Str "compute"; Int (index h); Res r]]
  | _, _ => []
  end.

(** The index an entry gives to the handle it made, read off the entry
    alone: the last component of every entry but a [compute] one. *)
Definition entry_output (e : entry V R) : option Z :=
  match e with
  | Str op :: args =>
      if String.eqb op "compute" then None
      else match last args PyNone with
           | Int i => Some i
           | _ => None
           end
  | _ => None
  end.

(** The indices of the handles an entry consumed, read off the entry
    alone. *)
Definition entry_inputs (e : entry V R) : list Z :=
  match e with
  | Str op :: args =>
      if String.eqb op "create_call" then
        match args with
        | [Int comp; Int _] => [comp]
        | [Int comp; Int a; Int _] => [comp; a]
        | _ => []
        end
      else if String.eqb op "create_tuple" then
        match args with
        | [Struct indices; Int _] => map snd indices
        | _ => []
        end
      else if String.eqb op "create_selection" then
        match args with
        | Int source :: _ => [source]
        | _ => []
        end
      else if String.eqb op "compute" then
        match args with
        | Int h :: _ => [h]
        | _ => []
        end
      else []
  | _ => []
  end.

Definition known (i : Z) (made : list Z) : bool := existsb (Z.eqb i) made.

(** A trace from which the call graph can be read: every entry consumes
    only indices made by earlier entries, and no index is made twice.
    [made] are the indices made so far. *)
Fixpoint call_graph_from (made : list Z) (trace : list (entry V R)) : bool :=
  match trace with
  | [] => true
  | e :: rest =>
      forallb (fun i => known i made) (entry_inputs e)
      && match entry_output e with
         | Some o => negb (known o made) && call_graph_from (o :: made) rest
         | None => call_graph_from made rest
         end
  end.

(** The calls of a run take only handles that earlier calls of the run
    returned. [mine] are the handles returned so far. *)
Fixpoint uses_own_handles (mine : list Wrapped)
    (history : list (call V Wrapped * outcome Wrapped R)) : Prop :=
  match history with
  | [] => True
  | (c, o) :: rest =>
      incl (input_handles c) mine
      /\ uses_own_handles (returned_handles [o] ++ mine) rest
  end.
End Trace_reading.

(** ** An executor that keeps the contract *)

(** A raw value handed to [create_value], with the type inferred for it. *)
Record Literal : Type := {
  literal_type : Type_;
  literal_id : Z
}.

(** What a handle embeds: the expression that makes its value. Evaluating
    it belongs to the backend. *)
Inductive Embedded : Type :=
| Emb_value (v : Literal)
| Emb_call (fn : Embedded) (arg : option Embedded)
| Emb_tuple (elements : list (option string * Embedded))
| Emb_selection (source : Embedded) (position : nat).

Record EmbeddedValue : Type := {
  type_signature : Type_;
  expression : Embedded
}.

(** The state of an executor that keeps the contract: whether it has been
    closed, and which of its two checks it makes first on a selection. The
    contract asks for [ClosedExecutorError] after [close] and for
    [SelectionError] on a malformed selection, and does not say which of the
    two a closed executor gives to a malformed selection: that is left to
    the executor. *)
Record ContractExecutor : Type := {
  closed : bool;
  checks_closed_first : bool
}.

Definition check_open : M ContractExecutor unit :=
  fun self =>
    if closed self then (self, inl ClosedExecutorError) else (self, inr tt).

(** The position a selector designates among the elements of a tuple type:
    the index when it is in range, the first element of that name. *)
Fixpoint position_of_name (n : string) (elements : list (option string * Type_))
    : option nat :=
  match elements with
  | [] => None
  | (name, _) :: rest =>
      if option_string_eqb name (Some n) then Some O
      else match position_of_name n rest with
           | Some k => Some (S k)
           | None => None
           end
  end.

Definition position_of_index (i : Z) (elements : list (option string * Type_))
    : option nat :=
  if (0 <=? i) && (i <? Z.of_nat (List.length elements)) then Some (Z.to_nat i)
  else None.

(** Modelled from the spec: the [Executor] contract (spec 4.1), none of whose
    implementations is part of the sources at hand. After [close] every
    other operation fails with [ClosedExecutorError]; [create_value] checks
    a supplied type against the inferred one; [create_call] wants a function
    and the argument its parameter calls for; [create_tuple] keeps order and
    names; [create_selection] wants exactly one selector, a tuple-typed
    source and an element at that index or of that name, and makes this
    check and the check for closure in the order the executor has chosen. *)
Definition Contract_create_value (v : Literal) (type_spec : option Type_)
    : M ContractExecutor EmbeddedValue :=
  check_open ;;;
  match type_spec with
  | Some t =>
      if is_assignable_from t (literal_type v)
      then ret {| type_signature := t; expression := Emb_value v |}
      else throw TypeMismatchError
  | None =>
      ret {| type_signature := literal_type v; expression := Emb_value v |}
  end.

Definition Contract_create_call (fn : EmbeddedValue) (arg : option EmbeddedValue)
    : M ContractExecutor EmbeddedValue :=
  check_open ;;;
  match type_signature fn with
  | FunctionType parameter result_type =>
      match parameter, arg with
      | None, None =>
          ret {| type_signature := result_type;
                 expression := Emb_call (expression fn) None |}
      | Some _, Some a =>
          ret {| type_signature := result_type;
                 expression := Emb_call (expression fn) (Some (expression a)) |}
      | _, _ => throw ArityError
      end
  | _ => throw NotCallableError
  end.

Definition Contract_create_tuple (elements : list (option string * EmbeddedValue))
    : M ContractExecutor EmbeddedValue :=
  check_open ;;;
  ret {| type_signature := NamedTupleType (map_structure type_signature elements);
         expression := Emb_tuple (map_structure expression elements) |}.

Definition select_element (source : EmbeddedValue)
    (index_arg : option Z) (name : option string)
    : M ContractExecutor EmbeddedValue :=
  match type_signature source with
  | NamedTupleType elements =>
      match
        match index_arg, name with
        | Some i, None => position_of_index i elements
        | None, Some n => position_of_name n elements
        | _, _ => None
        end
      with
      | Some k =>
          match nth_error elements k with
          | Some (_, t) =>
              ret {| type_signature := t;
                     expression := Emb_selection (expression source) k |}
          | None => throw SelectionError
          end
      | None => throw SelectionError
      end
  | _ => throw SelectionError
  end.

Definition Contract_create_selection (source : EmbeddedValue)
    (index_arg : option Z) (name : option string)
    : M ContractExecutor EmbeddedValue :=
  fun self =>
    if checks_closed_first self
    then (check_open ;;; select_element source index_arg name) self
    else (selected <- select_element source index_arg name ;;
          check_open ;;;
          ret selected) self.

Definition Contract_close : M ContractExecutor unit :=
  fun self =>
    ({| closed := true; checks_closed_first := checks_closed_first self |},
     inr tt).

Definition Contract_compute (h : EmbeddedValue) : M ContractExecutor Embedded :=
  check_open ;;;
  ret (expression h).

#[export] Instance Contract_Executor
    : Executor Literal Embedded ContractExecutor EmbeddedValue := {
  create_value := Contract_create_value;
  create_call := Contract_create_call;
  create_tuple := Contract_create_tuple;
  create_selection := Contract_create_selection;
  close := Contract_close;
  compute := Contract_compute
}.

(** A fresh executor of the contract, one that looks for closure before
    anything else. *)
Definition Contract_init : ContractExecutor :=
  {| closed := false; checks_closed_first := true |}.

(** ** An executor that accepts everything *)

(** An executor as [executor_base.Executor] allows it: it validates nothing
    and its [close] releases nothing, so every call returns, before and
    after [close]. Its handles are integers; a tuple is the number of its
    elements, a call and a selection are their first argument. *)
Definition Accepting_create_value (v : Z) (type_spec : option Type_) : M unit Z :=
  ret v.

Definition Accepting_create_call (comp : Z) (arg : option Z) : M unit Z :=
  ret comp.

Definition Accepting_create_tuple (elements : list (option string * Z))
    : M unit Z :=
  ret (Z.of_nat (List.length elements)).

Definition Accepting_create_selection (source : Z)
    (index_arg : option Z) (name : option string) : M unit Z :=
  ret source.

Definition Accepting_close : M unit unit := ret tt.

Definition Accepting_compute (h : Z) : M unit Z := ret h.

#[export] Instance Accepting_Executor : Executor Z Z unit Z := {
  create_value := Accepting_create_value;
  create_call := Accepting_create_call;
  create_tuple := Accepting_create_tuple;
  create_selection := Accepting_create_selection;
  close := Accepting_close;
  compute := Accepting_compute
}.

(** A tracing executor over it, and a handle it could have returned. *)
Definition accepting_tracer : TracingExecutor Z Z unit :=
  TracingExecutor_init tt.

Definition accepted_handle : TracingExecutorValue Z :=
  {| index := 7; value := 0 |}.

(** The types of [test_serialize_deserialize_*], as [types.to_type] makes
    them. *)
Definition roundtrip_test_types : list Type_ :=
  [ TensorType DT_INT32 [];
    TensorType DT_INT32 [Some 10];
    TensorType DT_INT32 [None];
    SequenceType (TensorType DT_INT32 []);
    SequenceType
      (NamedTupleType [(None, TensorType DT_INT32 []); (None, TensorType DT_BOOL [])]);
    SequenceType
      (NamedTupleType
         [(None, TensorType DT_INT32 []);
          (None, SequenceType (TensorType DT_BOOL []))]);
    NamedTupleType [(None, TensorType DT_INT32 []); (None, TensorType DT_BOOL [])];
    NamedTupleType
      [(None, TensorType DT_INT32 []); (Some "x", TensorType DT_BOOL [])];
    NamedTupleType [(Some "x", TensorType DT_INT32 [])];
    FunctionType (Some (TensorType DT_INT32 [])) (TensorType DT_BOOL []);
    FunctionType None (TensorType DT_BOOL []) ].

(** What a client sees from each call it issues once the executor has been
    closed. *)
Definition after_close {V H R : Type} (c : call V H) : outcome H R :=
  match c with
  | Close => Done
  | _ => Raised ClosedExecutorError
  end.

(** An executor that has been closed for good: whatever is issued next,
    [close] returns and every other call fails with [ClosedExecutorError]. *)
Definition dead {V R X H : Type} {executor : Executor V R X H} (x : X) : Prop :=
  forall calls : list (call V H),
    snd (run calls x) = map (@after_close V H R) calls.

(** The selections the contract refuses on a source of type [t]: both
    selectors, no selector, an index out of the range of the tuple, a name no
    element of the tuple has. *)
Definition selection_misuse (t : Type_)
    (index_arg : option Z) (name : option string) : bool :=
  match index_arg, name with
  | Some _, Some _ => true
  | None, None => true
  | Some i, None =>
      match t with
      | NamedTupleType elements =>
          (i <? 0) || (Z.of_nat (List.length elements) <=? i)
      | _ => false
      end
  | None, Some n =>
      match t with
      | NamedTupleType elements =>
          negb (existsb (fun ne => option_string_eqb (fst ne) (Some n)) elements)
      | _ => false
      end
  end.

(** The consecutive integers [first], [first + 1], ... *)
Fixpoint consecutive (first : Z) (count : nat) : list Z :=
  match count with
  | O => []
  | S n => first :: consecutive (first + 1) n
  end.

(** The call the wrapper forwards to its target: the same call on the
    target's own handles. *)
Definition unwrap {V H : Type} (c : call V (TracingExecutorValue H)) : call V H :=
  match c with
  | Create_value v type_spec => Create_value v type_spec
  | Create_call comp arg => Create_call (value comp) (option_map (@value H) arg)
  | Create_tuple elements => Create_tuple (map_structure (@value H) elements)
  | Create_selection source index_arg name =>
      Create_selection (value source) index_arg name
  | Close => Close
  | Compute h => Compute (value h)
  end.

(** A small session against a tracing executor over the contract executor:
    two values, their tuple, a selection from it and its computation. *)
Definition int32 : Type_ := TensorType DT_INT32 [].

Definition ten : Literal := {| literal_type := int32; literal_id := 10 |}.

Definition twenty : Literal := {| literal_type := int32; literal_id := 20 |}.

Definition handle_1 : TracingExecutorValue EmbeddedValue :=
  {| index := 1;
     value := {| type_signature := int32; expression := Emb_value ten |} |}.

Definition handle_2 : TracingExecutorValue EmbeddedValue :=
  {| index := 2;
     value := {| type_signature := int32; expression := Emb_value twenty |} |}.

Definition handle_3 : TracingExecutorValue EmbeddedValue :=
  {| index := 3;
     value :=
       {| type_signature := NamedTupleType [(Some "x", int32); (None, int32)];
          expression :=
            Emb_tuple [(Some "x", Emb_value ten); (None, Emb_value twenty)] |} |}.

Definition handle_4 : TracingExecutorValue EmbeddedValue :=
  {| index := 4;
     value :=
       {| type_signature := int32;
          expression :=
            Emb_selection
              (Emb_tuple [(Some "x", Emb_value ten); (None, Emb_value twenty)])
              0 |} |}.

Definition session : list (call Literal (TracingExecutorValue EmbeddedValue)) :=
  [ Create_value ten (Some int32);
    Create_value twenty None;
    Create_tuple [(Some "x", handle_1); (None, handle_2)];
    Create_selection handle_3 None (Some "x");
    Compute handle_4 ].

Definition fresh_tracer : TracingExecutor Literal Embedded ContractExecutor :=
  TracingExecutor_init Contract_init.

(** ** Compact representations ([serialization_test._compact_repr]) *)

(** A Python [str] whose code points are below 256, as the list of its
    characters; the [repr] of a wire message is such a string. *)
Definition str : Type := list ascii.

Definition newline : ascii := ascii_of_nat 10.

Definition blank : ascii := ascii_of_nat 32.

(** [str.isspace] on one character: the whitespace code points below 256
    are 9 to 13, 28 to 32, 133 and 160. *)
Definition isspace (c : ascii) : bool :=
  let n := nat_of_ascii c in
  ((9 <=? n) && (n <=? 13) || (28 <=? n) && (n <=? 32)
   || (n =? 133) || (n =? 160))%nat.

(** [s.startswith(old)]. *)
Fixpoint startswith (s old : str) {struct old} : bool :=
  match old, s with
  | [], _ => true
  | _ :: _, [] => false
  | a :: old', c :: s' => Ascii.eqb a c && startswith s' old'
  end.

(** [sub in s]. *)
Fixpoint contains (sub s : str) : bool :=
  match s with
  | [] => startswith [] sub
  | _ :: rest => startswith s sub || contains sub rest
  end.

(** [s.replace(old, new)] for a non-empty [old]: the string is scanned from
    the left, every occurrence found is replaced and the scan resumes after
    it; [skip] counts the characters of the occurrence still to pass. *)
Fixpoint replace_skipping (old new : str) (skip : nat) (s : str) : str :=
  match s with
  | [] => []
  | c :: rest =>
      match skip with
      | S k => replace_skipping old new k rest
      | O =>
          if startswith s old
          then new ++ replace_skipping old new (List.length old - 1) rest
          else c :: replace_skipping old new O rest
      end
  end.

Definition replace (old new s : str) : str := replace_skipping old new 0 s.

(** [s.lstrip()], [s.rstrip()] and [s.strip()]. *)
Fixpoint lstrip (s : str) : str :=
  match s with
  | [] => []
  | c :: rest => if isspace c then lstrip rest else s
  end.

Fixpoint rstrip (s : str) : str :=
  match s with
  | [] => []
  | c :: rest =>
      match rstrip rest with
      | [] => if isspace c then [] else [c]
      | kept => c :: kept
      end
  end.

Definition strip (s : str) : str := rstrip (lstrip s).

(** The loop [while '  ' in s: s = s.replace('  ', ' ')], run for at most
    [fuel] iterations. *)
Fixpoint collapse_spaces (fuel : nat) (s : str) : str :=
  match fuel with
  | O => s
  | S n =>
      if contains [blank; blank] s
      then collapse_spaces n (replace [blank; blank] [blank] s)
      else s
  end.

(** [_compact_repr(m)], on [repr_m], the [repr] of the message. The loop is
    given as many iterations as the string has characters. *)
Definition _compact_repr (repr_m : str) : str :=
  let s := replace [newline] [blank] repr_m in
  let s := collapse_spaces (List.length s) s in
  strip s.

(** Whether a string begins, or ends, with a whitespace character. *)
Definition starts_with_space (s : str) : bool :=
  match s with
  | [] => false
  | c :: _ => isspace c
  end.

Fixpoint ends_with_space (s : str) : bool :=
  match s with
  | [] => false
  | c :: rest =>
      match rest with
      | [] => isspace c
      | _ :: _ => ends_with_space rest
      end
  end.

(** The characters of a string that are not whitespace, in order. *)
Definition visible (s : str) : str := filter (fun c => negb (isspace c)) s.

(** A string in compact form: no newline, no two blanks in a row, no
    whitespace at either end. *)
Definition is_compact (s : str) : bool :=
  negb (contains [newline] s)
  && negb (contains [blank; blank] s)
  && negb (starts_with_space s)
  && negb (ends_with_space s).

(** The compact representation the tests expect for [(tf.int32, [None])]. *)
Definition tensor_undefined_dim_repr : str :=
  list_ascii_of_string "tensor { dtype: DT_INT32 shape { dim { size: -1 } } }".

(** What the target answered, behind what the wrapper answered. *)
Definition unwrap_outcome {H R : Type}
    (o : outcome (TracingExecutorValue H) R) : outcome H R :=
  match o with
  | Raised e => Raised e
  | Returned w => Returned (value w)
  | Done => Done
  | Computed r => Computed r
  end.

(** The indices the entries of a trace give to the handles they made, read
    off the trace alone, in order. *)
Definition trace_outputs {V R : Type} (trace : list (entry V R)) : list Z :=
  flat_map
    (fun e => match entry_output e with Some i => [i] | None => [] end)
    trace.

(** The component [create_selection] records for its selector. *)
Definition recorded_selector {V R : Type}
    (index_arg : option Z) (name : option string) : item V R :=
  match index_arg, name with
  | Some i, _ => Int i
  | None, Some n => Str n
  | None, None => PyNone
  end.

Unset Implicit Arguments.

(** * Properties *)

(** ** Serialization of types *)

Lemma deserialize_serialize_dimension (d : Dimension) :
  dimension_ok d = true ->
  deserialize_dimension (serialize_dimension d) = inr d.
Proof.
  destruct d as [n|]; simpl; intros Hd.
  - unfold deserialize_dimension.
    apply Z.leb_le in Hd.
    destruct (Z.eqb_spec n (-1)) as [->|_]; [lia|].
    destruct (Z.leb_spec 0 n); [reflexivity | lia].
  - reflexivity.
Qed.

Lemma deserialize_serialize_shape (shape : list Dimension) :
  forallb dimension_ok shape = true ->
  deserialize_shape (map serialize_dimension shape) = inr shape.
Proof.
  induction shape as [|d shape IH]; simpl; intros Hs.
  - reflexivity.
  - apply andb_true_iff in Hs as [Hd Hs].
    rewrite (deserialize_serialize_dimension d Hd), (IH Hs).
    reflexivity.
Qed.

Lemma deserialize_serialize_type (t : Type_) :
  constructible t = true -> deserialize_type (serialize_type t) = inr t.
Proof.
  induction t as [dtype shape | element IH | elements IH | r IHr | p r IHp IHr]
    using Type_nested_ind; simpl; intros Hc.
  - rewrite (deserialize_serialize_shape shape Hc). reflexivity.
  - rewrite (IH Hc). reflexivity.
  - match goal with
    | |- match ?body with _ => _ end = _ =>
        assert (Hl : body = inr elements); [| rewrite Hl; reflexivity]
    end.
    induction IH as [|[name e] elements He _ IHl]; [reflexivity|].
    apply andb_true_iff in Hc as [Hce Hcl].
    simpl in He. rewrite (He Hce), (IHl Hcl). reflexivity.
  - rewrite (IHr Hc). reflexivity.
  - apply andb_true_iff in Hc as [Hp Hr].
    rewrite (IHp Hp), (IHr Hr). reflexivity.
Qed.

Lemma DataType_eqb_refl (d : DataType) : DataType_eqb d d = true.
Proof. destruct d; reflexivity. Qed.

Lemma option_string_eqb_refl (n : option string) : option_string_eqb n n = true.
Proof. destruct n as [s|]; simpl; [apply String.eqb_refl | reflexivity]. Qed.

Lemma shape_accepts_refl (shape : list Dimension) : shape_accepts shape shape = true.
Proof.
  induction shape as [|[n|] shape IH]; simpl; auto.
  rewrite Z.eqb_refl; assumption.
Qed.

Lemma assignable_both_refl (t : Type_) : assignable_both t t = (true, true).
Proof.
  induction t as [dtype shape | element IH | elements IH | r IHr | p r IHp IHr]
    using Type_nested_ind; simpl.
  - rewrite DataType_eqb_refl, shape_accepts_refl. reflexivity.
  - assumption.
  - induction IH as [|[name e] elements He _ IHl]; [reflexivity|].
    simpl in He. rewrite He, IHl, option_string_eqb_refl. reflexivity.
  - rewrite IHr. reflexivity.
  - rewrite IHp, IHr. reflexivity.
Qed.

Lemma is_assignable_from_refl (t : Type_) : is_assignable_from t t = true.
Proof. unfold is_assignable_from. rewrite assignable_both_refl. reflexivity. Qed.

(** C1. Round trip: for every constructible Type [t],
    [deserialize_type (serialize_type t)] returns a Type structurally equal
    to [t] (same shape, dtype, names and element order), the two are
    assignable from each other, and serializing the result gives the same
    message again. *)
Theorem serialize_deserialize_roundtrip (t : Type_) :
  constructible t = true ->
  exists t2,
    deserialize_type (serialize_type t) = inr t2
    /\ t2 = t
    /\ is_assignable_from t t2 = true
    /\ is_assignable_from t2 t = true
    /\ serialize_type t2 = serialize_type t.
Proof.
  intros Hc. exists t.
  repeat split; auto using deserialize_serialize_type, is_assignable_from_refl.
Qed.

Lemma serialize_deserialize_roundtrip_witness :
  Forall
    (fun t =>
       constructible t = true
       /\ exists t2,
           deserialize_type (serialize_type t) = inr t2
           /\ t2 = t
           /\ is_assignable_from t t2 = true
           /\ is_assignable_from t2 t = true
           /\ serialize_type t2 = serialize_type t)
    roundtrip_test_types.
Proof.
  unfold roundtrip_test_types.
  repeat (apply Forall_cons;
          [split; [reflexivity
                  | apply serialize_deserialize_roundtrip; reflexivity]|]).
  apply Forall_nil.
Defined.

(** C7. For every tensor Type, [serialize_type] gives a tensor leaf with
    the same dtype and one size per dimension, in order: the size itself for
    a defined dimension and [-1] for an undefined one. *)
Theorem serialize_tensor_type (dtype : DataType) (shape : list Dimension) :
  exists sizes,
    serialize_type (TensorType dtype shape) = pb_tensor dtype sizes
    /\ List.length sizes = List.length shape
    /\ forall k d,
        nth_error shape k = Some d ->
        nth_error sizes k = Some (match d with Some n => n | None => -1 end).
Proof.
  exists (map serialize_dimension shape). simpl.
  split; [reflexivity|]. split; [apply length_map|].
  intros k d Hk.
  rewrite nth_error_map, Hk. destruct d; reflexivity.
Qed.

(** On a constructible tensor Type a size of [-1] marks exactly the
    undefined dimensions. *)
Lemma unknown_dimension_marker (shape : list Dimension) (k : nat) :
  forallb dimension_ok shape = true ->
  nth_error (map serialize_dimension shape) k = Some (-1)
  <-> nth_error shape k = Some None.
Proof.
  intros Hs. rewrite nth_error_map.
  destruct (nth_error shape k) as [d|] eqn:Hk; simpl; [|split; discriminate].
  assert (Hd : dimension_ok d = true).
  { rewrite forallb_forall in Hs. apply Hs. eapply nth_error_In; eauto. }
  destruct d as [n|]; simpl in *; [|tauto].
  apply Z.leb_le in Hd.
  split; intros E; inversion E; lia.
Qed.

(** [test_serialize_type_with_tensor_dtype_with_shape_undefined_dim] and its
    neighbours. *)
Example serialize_int32_undefined_dim :
  serialize_type (TensorType DT_INT32 [None]) = pb_tensor DT_INT32 [-1].
Proof. reflexivity. Qed.

Example serialize_int32_10_20 :
  serialize_type (TensorType DT_INT32 [Some 10; Some 20])
  = pb_tensor DT_INT32 [10; 20].
Proof. reflexivity. Qed.

(** C8. The computation made by [create_dummy_empty_tensorflow_computation]
    has a type that deserializes to [( -> <>)], the function type without
    parameter whose result is the empty tuple, and is a backend fragment
    without parameter binding. *)
Theorem dummy_empty_tensorflow_computation (G : Type) (packed_graph_def : G) :
  let comp := create_dummy_empty_tensorflow_computation packed_graph_def in
  deserialize_type (computation_type comp)
  = inr (FunctionType None (NamedTupleType []))
  /\ exists tensorflow,
      computation_body comp = pb_tensorflow tensorflow
      /\ parameter_binding tensorflow = None
      /\ result_binding tensorflow = pb_tuple_binding []
      /\ graph_def tensorflow = packed_graph_def.
Proof.
  simpl. split; [reflexivity|].
  eexists. split; [reflexivity|]. simpl. auto.
Qed.

(** ** Sequences of calls *)

Section Run_properties.
Context {V R X H : Type} {executor : Executor V R X H}.

Lemma run_cons (c : call V H) (rest : list (call V H)) (x : X) :
  run (c :: rest) x
  = (fst (run rest (fst (perform c x))),
     snd (perform c x) :: snd (run rest (fst (perform c x)))).
Proof.
  simpl. destruct (perform c x) as [x1 o]. simpl.
  destruct (run rest x1) as [x2 os]. reflexivity.
Qed.

(** Once closed for good, an executor stays so after any further call, and
    answers that call as a closed executor does. *)
Lemma dead_step (x : X) (c : call V H) :
  dead x ->
  snd (perform c x) = after_close c /\ dead (fst (perform c x)).
Proof.
  intros Hd. split.
  - specialize (Hd [c]). rewrite run_cons in Hd. simpl in Hd.
    inversion Hd. reflexivity.
  - intros calls. specialize (Hd (c :: calls)).
    rewrite run_cons in Hd. simpl in Hd. inversion Hd. reflexivity.
Qed.
End Run_properties.

(** ** The tracing executor *)

Section Tracing_properties.
Context {V R X H : Type} {target_class : Executor V R X H}.

Local Abbreviation Self := (TracingExecutor V R X).
Local Abbreviation Wrapped := (TracingExecutorValue H).

Ltac run_method :=
  unfold perform, observe; simpl;
  unfold TracingExecutor_create_value, TracingExecutor_create_call,
    TracingExecutor_create_tuple, TracingExecutor_create_selection,
    TracingExecutor_close, TracingExecutorValue_compute,
    bind, await, _get_new_value_index, trace_append, ret; simpl.

Ltac target_raises_or_returns :=
  match goal with
  | |- context [let (_, _) := ?m (_target ?s) in _] =>
      destruct (m (_target s)) as [? [?|?]]; simpl
  end.

(** One call through the wrapper: the trace grows by what the call and its
    outcome should leave, and the counter moves by one exactly when a handle
    is returned, whose index is the new value of the counter. *)
Lemma perform_tracing (c : call V Wrapped) (self : Self) :
  _trace (fst (perform c self))
  = _trace self ++ recorded c (snd (perform c self))
  /\ match snd (perform c self) with
     | Returned w =>
         index w = _last_used_index self + 1
         /\ _last_used_index (fst (perform c self)) = _last_used_index self + 1
     | _ => _last_used_index (fst (perform c self)) = _last_used_index self
     end.
Proof.
  destruct c as [v [t|] | comp [a|] | elements | source [i|] [n|] | | h];
    run_method; target_raises_or_returns; rewrite ?app_nil_r; auto.
Qed.

(** Only the four create operations return a handle. *)
Lemma perform_returned (c : call V Wrapped) (self : Self) (w : Wrapped) :
  snd (perform c self) = Returned w -> is_create c = true.
Proof.
  destruct c; try reflexivity; run_method; target_raises_or_returns;
    discriminate.
Qed.

(** What can be read off the entry of a create operation that returned
    [w]: the indices of its input handles and the index of [w]. *)
Lemma recorded_create (c : call V Wrapped) (w : Wrapped) :
  is_create c = true ->
  exists e : entry V R,
    recorded c (Returned w) = [e]
    /\ entry_inputs e = map (@index H) (input_handles c)
    /\ entry_output e = Some (index w).
Proof.
  destruct c as [v [t|] | comp [a|] | elements | source [i|] [n|] | | h];
    try discriminate; intros _; eexists; (split; [reflexivity|]);
    split; try reflexivity.
  simpl. rewrite !map_map. reflexivity.
Qed.

(** A call that returned no handle leaves no entry, or one that makes no
    index. *)
Lemma recorded_other (c : call V Wrapped) (o : outcome Wrapped R) :
  (forall w, o <> Returned w) ->
  recorded c o = []
  \/ exists e : entry V R,
      recorded c o = [e]
      /\ entry_inputs e = map (@index H) (input_handles c)
      /\ entry_output e = None.
Proof.
  intros Ho.
  destruct o as [e|w| |r]; [| exfalso; eapply Ho; reflexivity | |].
  - left. destruct c as [v [t|] | comp [a|] | elements | source [i|] [n|] | | h];
      reflexivity.
  - left. destruct c as [v [t|] | comp [a|] | elements | source [i|] [n|] | | h];
      reflexivity.
  - destruct c as [v [t|] | comp [a|] | elements | source [i|] [n|] | | h];
      try (left; reflexivity).
    right. eexists. repeat split.
Qed.

Lemma known_fresh (made : list Z) (n : Z) :
  (forall i, In i made -> i <= n) -> known (n + 1) made = false.
Proof.
  intros Hm. unfold known.
  destruct (existsb (Z.eqb (n + 1)) made) eqn:E; [|reflexivity].
  apply existsb_exists in E as (i & Hi & Heq).
  apply Z.eqb_eq in Heq. apply Hm in Hi. lia.
Qed.

Lemma inputs_known (mine : list Wrapped) (made : list Z) (hs : list Wrapped) :
  (forall h, In h mine -> known (index h) made = true) ->
  incl hs mine ->
  forallb (fun i => known i made) (map (@index H) hs) = true.
Proof.
  intros Hm Hin. apply forallb_forall. intros i Hi.
  apply in_map_iff in Hi as (h & <- & Hh). auto.
Qed.

Lemma returned_handles_cons (o : outcome Wrapped R) (os : list (outcome Wrapped R)) :
  returned_handles (o :: os) = returned_handles [o] ++ returned_handles os.
Proof. destruct o; reflexivity. Qed.

(** A whole run: the handles returned carry the consecutive indices that
    follow the counter, the counter ends on the last of them, and the trace
    grows by the records of the calls, in order. *)
Lemma run_tracing (calls : list (call V Wrapped)) (self : Self) :
  let outs := snd (run calls self) in
  let made := returned_handles outs in
  map (@index H) made = consecutive (_last_used_index self + 1) (List.length made)
  /\ _last_used_index (fst (run calls self))
     = _last_used_index self + Z.of_nat (List.length made)
  /\ _trace (fst (run calls self))
     = _trace self
       ++ flat_map (fun co => recorded (fst co) (snd co)) (combine calls outs).
Proof.
  revert self. induction calls as [|c rest IH]; intros self.
  - simpl. rewrite app_nil_r. repeat split; lia.
  - rewrite run_cons. cbv zeta. simpl fst. simpl snd.
    destruct (perform_tracing c self) as [Htrace Hindex].
    destruct (IH (fst (perform c self))) as (IHi & IHc & IHt).
    rewrite IHt, Htrace. simpl combine. simpl flat_map.
    rewrite <- app_assoc.
    destruct (snd (perform c self)) as [e|w| |r]; simpl returned_handles.
    + rewrite Hindex in IHi, IHc. auto.
    + destruct Hindex as [Hw Hs]. rewrite Hs in IHi, IHc.
      simpl. rewrite Hw, IHi, IHc. repeat split; auto. lia.
    + rewrite Hindex in IHi, IHc. auto.
    + rewrite Hindex in IHi, IHc. auto.
Qed.

Lemma consecutive_lower (first : Z) (count : nat) (i : Z) :
  In i (consecutive first count) -> first <= i.
Proof.
  revert first. induction count as [|n IH]; simpl; intros first Hi.
  - contradiction.
  - destruct Hi as [<-|Hi]; [lia|]. apply IH in Hi. lia.
Qed.

Lemma consecutive_sorted (first : Z) (count : nat) :
  StronglySorted Z.lt (consecutive first count).
Proof.
  revert first. induction count as [|n IH]; simpl; intros first.
  - constructor.
  - constructor; [apply IH|].
    apply Forall_forall. intros i Hi. apply consecutive_lower in Hi. lia.
Qed.

Lemma consecutive_NoDup (first : Z) (count : nat) :
  NoDup (consecutive first count).
Proof.
  revert first. induction count as [|n IH]; simpl; intros first.
  - constructor.
  - constructor; [|apply IH].
    intros Hi. apply consecutive_lower in Hi. lia.
Qed.

(** C2. Whatever sequence of operations is issued through a tracing
    executor, the indices of the handles it returns are 1, 2, 3, ... in the
    order of the operations: they start at 1, are strictly increasing and
    never repeat. *)
Theorem handle_indices_strictly_increasing
    (target : X) (calls : list (call V Wrapped)) :
  let indices :=
    map (@index H)
      (returned_handles (snd (run calls (TracingExecutor_init target)))) in
  indices = consecutive 1 (List.length indices)
  /\ StronglySorted Z.lt indices
  /\ NoDup indices.
Proof.
  intros indices.
  destruct (run_tracing calls (TracingExecutor_init target)) as (Hi & _ & _).
  cbv zeta in Hi. simpl _last_used_index in Hi. fold indices in Hi.
  assert (E : indices = consecutive 1 (List.length indices)).
  { rewrite Hi at 1. unfold indices. rewrite length_map. reflexivity. }
  split; [exact E|]. rewrite E.
  split; [apply consecutive_sorted | apply consecutive_NoDup].
Qed.

(** A call through the wrapper leaves exactly one entry when it returns a
    handle or a result, and none when it raises or is a [close]. *)
Lemma perform_entries (c : call V Wrapped) (self : Self) :
  List.length (recorded c (snd (perform c self)))
  = (List.length (returned_handles [snd (perform c self)])
     + List.length (computed_results [snd (perform c self)]))%nat.
Proof.
  destruct c as [v [t|] | comp [a|] | elements | source [i|] [n|] | | h];
    run_method; target_raises_or_returns; reflexivity.
Qed.

Lemma run_entries (calls : list (call V Wrapped)) (self : Self) :
  List.length
    (flat_map (fun co => recorded (fst co) (snd co))
       (combine calls (snd (run calls self))))
  = (List.length (returned_handles (snd (run calls self)))
     + List.length (computed_results (snd (run calls self))))%nat.
Proof.
  revert self. induction calls as [|c rest IH]; intros self; [reflexivity|].
  rewrite run_cons. simpl snd. simpl combine. simpl flat_map.
  rewrite length_app, (IH (fst (perform c self))).
  simpl fst. simpl snd. rewrite (perform_entries c self).
  destruct (snd (perform c self)); simpl; lia.
Qed.

(** When the calls take only handles the executor returned before, every
    entry of the trace consumes indices made by earlier entries and makes an
    index no earlier entry made. *)
Lemma run_call_graph (calls : list (call V Wrapped)) (self : Self)
    (mine : list Wrapped) (made : list Z) :
  (forall h, In h mine -> known (index h) made = true) ->
  (forall i, In i made -> i <= _last_used_index self) ->
  uses_own_handles mine (combine calls (snd (run calls self))) ->
  call_graph_from made
    (flat_map (fun co => recorded (fst co) (snd co))
       (combine calls (snd (run calls self)))) = true.
Proof.
  revert self mine made. induction calls as [|c rest IH];
    intros self mine made Hmine Hmade Hown; [reflexivity|].
  rewrite run_cons in *. simpl snd in *. simpl combine in *.
  simpl flat_map. simpl fst. simpl snd.
  destruct Hown as [Hin Hown].
  destruct (perform_tracing c self) as [_ Hindex].
  pose proof (perform_returned c self) as Hcreate.
  pose proof (inputs_known _ _ _ Hmine Hin) as Hinputs.
  destruct (snd (perform c self)) as [e|w| |r] eqn:Ho.
  2: {
    destruct Hindex as [Hw Hs].
    destruct (recorded_create c w (Hcreate w eq_refl)) as (e & -> & Hi & Hout).
    simpl. rewrite Hi, Hout, Hinputs, Hw, (known_fresh _ _ Hmade). simpl.
    rewrite <- Hw. apply IH with (mine := w :: mine).
    - intros h [<-|Hh]; unfold known; simpl.
      + rewrite Z.eqb_refl. reflexivity.
      + apply Hmine in Hh. unfold known in Hh. rewrite Hh. apply orb_true_r.
    - intros i [<-|Hi']; [lia|]. apply Hmade in Hi'. lia.
    - exact Hown.
  }
  all: match goal with
       | |- context [recorded ?c0 ?o] =>
           destruct (recorded_other c0 o) as [-> | (e' & -> & Hi & Hout)];
             [discriminate | | ]
       end;
    simpl; rewrite ?Hi, ?Hout, ?Hinputs; simpl;
    apply IH with (mine := mine); auto; rewrite Hindex; auto.
Qed.

(** C3, as the code has it. The trace of a tracing executor is the exact,
    order-preserving record of the operations that returned: every
    [create_value], [create_call], [create_tuple] and [create_selection]
    that returns leaves exactly one entry, in the order of the calls, with
    the operation name, the indices of its input handles (the literal value
    and type for [create_value]) and the index of the handle returned; a
    [compute] that returns leaves its own entry; a call that raises, and
    [close], leave none. When the calls take only handles this executor
    returned earlier, each index an entry consumes was made by exactly one
    earlier entry, so the call graph can be read from the indices alone. *)
Theorem trace_records_returned_operations
    (target : X) (calls : list (call V Wrapped)) :
  let final := fst (run calls (TracingExecutor_init target)) in
  let history := combine calls (snd (run calls (TracingExecutor_init target))) in
  let outs := snd (run calls (TracingExecutor_init target)) in
  _trace final = flat_map (fun co => recorded (fst co) (snd co)) history
  /\ List.length (_trace final)
     = (List.length (returned_handles outs)
        + List.length (computed_results outs))%nat
  /\ (uses_own_handles [] history -> call_graph_from [] (_trace final) = true).
Proof.
  cbv zeta.
  destruct (run_tracing calls (TracingExecutor_init target)) as (_ & _ & Ht).
  cbv zeta in Ht. simpl _trace in Ht at 2. simpl app in Ht.
  split; [exact Ht|].
  split; [rewrite Ht; apply run_entries|].
  intros Hown. rewrite Ht.
  apply run_call_graph with (mine := []); auto; intros ? [].
Qed.

(** C4. [compute] on a wrapped handle first runs the [compute] of the
    target's handle, on the target as the owner holds it; when that returns
    [r] the owner's trace gets the one entry [('compute', index, r)] and [r]
    is returned as it is; when it raises, the exception propagates and
    nothing is appended. *)
Theorem compute_delegates_then_records (self : Wrapped) (owner : Self) :
  TracingExecutorValue_compute self owner
  = match compute (value self) (_target owner) with
    | (target', inr r) =>
        ({| _target := target';
            _last_used_index := _last_used_index owner;
            _trace := _trace owner ++ [[Str "compute"; Int (index self); Res r]] |},
         inr r)
    | (target', inl e) =>
        ({| _target := target';
            _last_used_index := _last_used_index owner;
            _trace := _trace owner |},
         inl e)
    end.
Proof.
  run_method. destruct (compute (value self) (_target owner)) as [target' [e|r]];
    reflexivity.
Qed.

(** C9. When the target's [create_value] returns, the wrapper appends one
    entry: [('create_value', value, type_spec, index)], of four components,
    when a type was supplied, and [('create_value', value, index)], of three
    components none of which is a type, when it was not. *)
Theorem create_value_trace_entry
    (v : V) (type_spec : option Type_) (self : Self)
    (target' : X) (target_val : H) :
  create_value v type_spec (_target self) = (target', inr target_val) ->
  let i := _last_used_index self + 1 in
  let e : entry V R :=
    match type_spec with
    | Some t => [Str "create_value"; Val v; Spec t; Int i]
    | None => [Str "create_value"; Val v; Int i]
    end in
  TracingExecutor_create_value v type_spec self
  = ({| _target := target';
        _last_used_index := i;
        _trace := _trace self ++ [e] |},
     inr {| index := i; value := target_val |})
  /\ match type_spec with
     | Some t => List.length e = 4%nat /\ nth_error e 2 = Some (Spec t)
     | None => List.length e = 3%nat /\ forall t, ~ In (Spec t) e
     end.
Proof.
  intros Htarget. cbv zeta. split.
  - run_method. rewrite Htarget. destruct type_spec; reflexivity.
  - destruct type_spec as [t|]; simpl; split; auto.
    intros t [E|[E|[E|[]]]]; discriminate.
Qed.

(** When the target's [create_value] raises, so does the wrapper's, and
    neither the trace nor the counter moves. *)
Lemma create_value_raises
    (v : V) (type_spec : option Type_) (self : Self) (target' : X) (e : exn) :
  create_value v type_spec (_target self) = (target', inl e) ->
  TracingExecutor_create_value v type_spec self
  = ({| _target := target';
        _last_used_index := _last_used_index self;
        _trace := _trace self |}, inl e).
Proof. intros Htarget. run_method. rewrite Htarget. reflexivity. Qed.

(** C10. [close] on the wrapper is [close] on the target: it returns or
    raises as the target's does, appends no trace entry and leaves the
    counter where it was. *)
Theorem close_delegates_and_keeps_state (self : Self) :
  TracingExecutor_close self
  = ({| _target := fst (close (_target self));
        _last_used_index := _last_used_index self;
        _trace := _trace self |},
     snd (close (_target self)))
  /\ _trace (fst (TracingExecutor_close self)) = _trace self
  /\ _last_used_index (fst (TracingExecutor_close self)) = _last_used_index self.
Proof.
  unfold TracingExecutor_close, await.
  destruct (close (_target self)) as [target' r]. simpl. auto.
Qed.

(** The wrapper forwards each call to its target and hands back what the
    target answered, a returned handle being wrapped. *)
Lemma perform_delegates (c : call V Wrapped) (self : Self) :
  _target (fst (perform c self)) = fst (perform (unwrap c) (_target self))
  /\ match snd (perform (unwrap c) (_target self)) with
     | Raised e => snd (perform c self) = Raised e
     | Returned target_val =>
         exists w, snd (perform c self) = Returned w /\ value w = target_val
     | Done => snd (perform c self) = Done
     | Computed r => snd (perform c self) = Computed r
     end.
Proof.
  destruct c as [v [t|] | comp [a|] | elements | source [i|] [n|] | | h];
    run_method; target_raises_or_returns; eauto.
Qed.

(** A tracing executor over a target closed for good is closed for good. *)
Lemma tracing_dead (self : Self) : dead (_target self) -> dead self.
Proof.
  intros Hd calls. revert self Hd.
  induction calls as [|c rest IH]; intros self Hd; [reflexivity|].
  rewrite run_cons. simpl.
  destruct (dead_step (_target self) (unwrap c) Hd) as [Ho Hd'].
  destruct (perform_delegates c self) as [Ht Hsame].
  rewrite Ho in Hsame. rewrite <- Ht in Hd'.
  rewrite (IH _ Hd'). f_equal.
  destruct c; simpl in *; assumption.
Qed.
End Tracing_properties.

(** ** The executor contract *)

Lemma contract_closed_perform (x : ContractExecutor)
    (c : call Literal EmbeddedValue) :
  closed x = true ->
  checks_closed_first x = true ->
  snd (perform c x) = after_close c
  /\ closed (fst (perform c x)) = true
  /\ checks_closed_first (fst (perform c x)) = true.
Proof.
  intros Hx Hfirst.
  destruct c; unfold perform, observe; simpl;
    unfold Contract_create_value, Contract_create_call, Contract_create_tuple,
      Contract_create_selection, Contract_compute, Contract_close,
      bind, check_open;
    rewrite ?Hfirst, ?Hx; simpl; auto.
Qed.

(** An executor of the contract that looks for closure first is closed for
    good once closed. *)
Lemma contract_dead (x : ContractExecutor) :
  closed x = true -> checks_closed_first x = true -> dead x.
Proof.
  intros Hx Hfirst calls. revert x Hx Hfirst.
  induction calls as [|c rest IH]; intros x Hx Hfirst; [reflexivity|].
  rewrite run_cons. simpl.
  destruct (contract_closed_perform x c Hx Hfirst) as (-> & Hx' & Hfirst').
  rewrite (IH _ Hx' Hfirst'). reflexivity.
Qed.

Lemma position_of_name_missing (n : string)
    (elements : list (option string * Type_)) :
  existsb (fun ne => option_string_eqb (fst ne) (Some n)) elements = false ->
  position_of_name n elements = None.
Proof.
  induction elements as [|[name t] rest IH]; simpl; intros He; [reflexivity|].
  apply orb_false_iff in He as [Hn Hrest].
  rewrite Hn, (IH Hrest). reflexivity.
Qed.

Lemma position_of_index_out_of_range (i : Z)
    (elements : list (option string * Type_)) :
  (i <? 0) || (Z.of_nat (List.length elements) <=? i) = true ->
  position_of_index i elements = None.
Proof.
  intros Hi. unfold position_of_index.
  destruct (Z.leb_spec 0 i), (Z.ltb_spec i (Z.of_nat (List.length elements)));
    simpl; try reflexivity.
  apply orb_true_iff in Hi as [Hi|Hi]; [apply Z.ltb_lt in Hi | apply Z.leb_le in Hi];
    lia.
Qed.

Lemma contract_selection_misuse (source : EmbeddedValue)
    (index_arg : option Z) (name : option string) (x : ContractExecutor) :
  closed x = false ->
  selection_misuse (type_signature source) index_arg name = true ->
  Contract_create_selection source index_arg name x = (x, inl SelectionError).
Proof.
  intros Hx Hbad.
  assert (Hselect :
            select_element source index_arg name x = (x, inl SelectionError)).
  { unfold select_element.
    destruct (type_signature source) as [| |elements|];
      destruct index_arg as [i|], name as [n|]; simpl in Hbad;
      try discriminate; try reflexivity.
    - rewrite (position_of_index_out_of_range i elements Hbad). reflexivity.
    - apply negb_true_iff in Hbad.
      rewrite (position_of_name_missing n elements Hbad). reflexivity. }
  unfold Contract_create_selection, bind, check_open.
  rewrite Hx, Hselect. destruct (checks_closed_first x); reflexivity.
Qed.

(** On an executor of the contract that has not been closed, a selection
    with both an index and a name, with neither, with an index out of the
    range of the tuple-typed source or with a name no element of it has,
    fails with [SelectionError] and changes nothing; so it does through a
    tracing executor that wraps it, whose trace and counter stay as they
    were. *)
Lemma selection_contract_while_open (source : EmbeddedValue)
    (index_arg : option Z) (name : option string) :
  selection_misuse (type_signature source) index_arg name = true ->
  (forall x : ContractExecutor,
      closed x = false ->
      create_selection source index_arg name x = (x, inl SelectionError))
  /\ (forall (self : TracingExecutor Literal Embedded ContractExecutor)
             (w : TracingExecutorValue EmbeddedValue),
         value w = source ->
         closed (_target self) = false ->
         create_selection w index_arg name self = (self, inl SelectionError)).
Proof.
  intros Hbad. split.
  - intros x Hx. apply contract_selection_misuse; assumption.
  - intros [target last trace] w <- Hx. simpl in *.
    unfold TracingExecutor_create_selection, bind, await. simpl.
    rewrite (contract_selection_misuse _ _ _ _ Hx Hbad). reflexivity.
Qed.

(** ** A session, run *)

Example session_outcomes :
  returned_handles (snd (run session fresh_tracer))
  = [handle_1; handle_2; handle_3; handle_4].
Proof. reflexivity. Qed.

Example session_trace :
  _trace (fst (run session fresh_tracer))
  = [ [Str "create_value"; Val ten; Spec int32; Int 1];
      [Str "create_value"; Val twenty; Int 2];
      [Str "create_tuple"; Struct [(Some "x", 1); (None, 2)]; Int 3];
      [Str "create_selection"; Int 3; Str "x"; Int 4];
      [Str "compute"; Int 4; Res (expression (value handle_4))] ].
Proof. reflexivity. Qed.

Lemma session_uses_own_handles :
  uses_own_handles [] (combine session (snd (run session fresh_tracer))).
Proof.
  simpl. unfold incl. simpl. intuition.
Qed.

Lemma trace_records_returned_operations_witness :
  uses_own_handles [] (combine session (snd (run session fresh_tracer)))
  /\ call_graph_from [] (_trace (fst (run session fresh_tracer))) = true.
Proof.
  split; [exact session_uses_own_handles|].
  apply (proj2 (proj2 (trace_records_returned_operations Contract_init session))).
  exact session_uses_own_handles.
Defined.

(** A create operation that raises leaves no entry: after a value has been
    made, selecting from it, which is no tuple, fails, and the trace holds
    one entry for the two operations. *)
Lemma failed_operation_leaves_no_entry :
  ~ (forall calls : list (call Literal (TracingExecutorValue EmbeddedValue)),
        forallb is_create calls = true ->
        List.length (_trace (fst (run calls fresh_tracer))) = List.length calls).
Proof.
  intros Hclaim.
  specialize (Hclaim [Create_value ten None; Create_selection handle_1 (Some 0) None]
                eq_refl).
  discriminate Hclaim.
Qed.

Example failed_selection_outcomes :
  snd (run [Create_value ten None; Create_selection handle_1 (Some 0) None]
         fresh_tracer)
  = [Returned handle_1; Raised SelectionError].
Proof. reflexivity. Qed.

Lemma create_value_trace_entry_witness :
  create_value ten (Some int32) (_target fresh_tracer)
  = (Contract_init, inr (value handle_1))
  /\ TracingExecutor_create_value ten (Some int32) fresh_tracer
     = ({| _target := Contract_init;
           _last_used_index := 1;
           _trace := [[Str "create_value"; Val ten; Spec int32; Int 1]] |},
        inr handle_1).
Proof.
  assert (Htarget : create_value ten (Some int32) (_target fresh_tracer)
                    = (Contract_init, inr (value handle_1))) by reflexivity.
  split; [exact Htarget|].
  apply (proj1 (create_value_trace_entry ten (Some int32) fresh_tracer
                  Contract_init (value handle_1) Htarget)).
Defined.

(** ** Compact representations *)

Lemma startswith_spec (old s : str) :
  startswith s old = true <-> exists rest, s = old ++ rest.
Proof.
  revert s. induction old as [|a old IH]; intros s; simpl.
  - split; [intros _; exists s; reflexivity | intros _; reflexivity].
  - destruct s as [|c s'].
    + split; [discriminate | intros [rest E]; discriminate E].
    + rewrite andb_true_iff, Ascii.eqb_eq, IH. split.
      * intros [-> [rest ->]]. exists rest. reflexivity.
      * intros [rest E]. inversion E. split; [reflexivity|]. exists rest. reflexivity.
Qed.

Lemma contains_spec (sub s : str) :
  contains sub s = true <-> exists before after, s = before ++ sub ++ after.
Proof.
  split.
  - induction s as [|c rest IH]; simpl.
    + intros Hs. apply startswith_spec in Hs as [after E]. exists [], after. exact E.
    + intros Hs. apply orb_true_iff in Hs as [Hs|Hs].
      * apply startswith_spec in Hs as [after E]. exists [], after. exact E.
      * destruct (IH Hs) as (before & after & ->). exists (c :: before), after.
        reflexivity.
  - intros (before & after & ->).
    induction before as [|c before IH]; simpl.
    + assert (Hs : startswith (sub ++ after) sub = true)
        by (apply startswith_spec; exists after; reflexivity).
      destruct (sub ++ after); simpl; [exact Hs | rewrite Hs; reflexivity].
    + rewrite IH. apply orb_true_r.
Qed.

Lemma contains_inside (sub before s after : str) :
  contains sub s = true -> contains sub (before ++ s ++ after) = true.
Proof.
  intros Hs. apply contains_spec in Hs as (a & b & ->).
  apply contains_spec. exists (before ++ a), (b ++ after).
  rewrite <- !app_assoc. reflexivity.
Qed.

(** Replacing one character by another is a map over the characters. *)
Lemma replace_character (a b : ascii) (s : str) :
  replace [a] [b] s = map (fun c => if Ascii.eqb a c then b else c) s.
Proof.
  unfold replace. induction s as [|c rest IH]; simpl; [reflexivity|].
  rewrite andb_true_r. destruct (Ascii.eqb a c); simpl; rewrite IH; reflexivity.
Qed.

(** One pass of [s.replace('  ', ' ')], two characters at a time. *)
Lemma halve_pair (rest : str) :
  replace [blank; blank] [blank] (blank :: blank :: rest)
  = blank :: replace [blank; blank] [blank] rest.
Proof. reflexivity. Qed.

Lemma halve_other (c d : ascii) (rest : str) :
  Ascii.eqb blank c && Ascii.eqb blank d = false ->
  replace [blank; blank] [blank] (c :: d :: rest)
  = c :: replace [blank; blank] [blank] (d :: rest).
Proof.
  intros Hcd. unfold replace.
  change (replace_skipping [blank; blank] [blank] 0 (c :: d :: rest))
    with (if Ascii.eqb blank c && (Ascii.eqb blank d && true)
          then [blank] ++ replace_skipping [blank; blank] [blank] 1 (d :: rest)
          else c :: replace_skipping [blank; blank] [blank] 0 (d :: rest)).
  rewrite andb_true_r, Hcd. reflexivity.
Qed.

Lemma contains_blanks_cons (c d : ascii) (rest : str) :
  contains [blank; blank] (c :: d :: rest)
  = Ascii.eqb blank c && Ascii.eqb blank d || contains [blank; blank] (d :: rest).
Proof.
  change (contains [blank; blank] (c :: d :: rest))
    with (Ascii.eqb blank c && (Ascii.eqb blank d && true)
          || contains [blank; blank] (d :: rest)).
  rewrite andb_true_r. reflexivity.
Qed.

Lemma halve_one (c : ascii) : replace [blank; blank] [blank] [c] = [c].
Proof.
  unfold replace. simpl. rewrite andb_false_r. reflexivity.
Qed.

Lemma contains_blanks_one (c : ascii) : contains [blank; blank] [c] = false.
Proof. simpl. rewrite andb_false_r. reflexivity. Qed.

(** Induction two characters at a time. *)
Lemma str_pair_ind (P : str -> Prop) :
  P [] ->
  (forall c, P [c]) ->
  (forall c d rest, P rest -> P (d :: rest) -> P (c :: d :: rest)) ->
  forall s, P s.
Proof.
  intros Hnil Hone Hpair s.
  assert (H : P s /\ forall c, P (c :: s)); [|exact (proj1 H)].
  induction s as [|d rest [IH1 IH2]]; split; auto.
Qed.

Ltac by_pairs s :=
  induction s as [|c|c d rest IHrest IHtail] using str_pair_ind;
  [ | rewrite ?halve_one, ?contains_blanks_one
    | destruct (Ascii.eqb blank c && Ascii.eqb blank d) eqn:Hcd;
        [ apply andb_true_iff in Hcd as [Hc Hd];
          apply Ascii.eqb_eq in Hc, Hd; subst c d; rewrite ?halve_pair
        | rewrite ?(halve_other _ _ _ Hcd), ?contains_blanks_cons, ?Hcd ] ].

Lemma halve_length (s : str) :
  (List.length (replace [blank; blank] [blank] s) <= List.length s)%nat
  /\ (contains [blank; blank] s = true ->
      (List.length (replace [blank; blank] [blank] s) < List.length s)%nat).
Proof.
  by_pairs s.
  - split; [reflexivity | discriminate].
  - split; [reflexivity | discriminate].
  - simpl. split; intros; lia.
  - simpl orb. simpl List.length in *. split; [lia|].
    intros Hs. apply IHtail in Hs. lia.
Qed.

Lemma halve_In (x : ascii) (s : str) :
  In x (replace [blank; blank] [blank] s) -> In x s.
Proof.
  by_pairs s; try (intros H; exact H).
  - intros [<-|Hx]; [left; reflexivity | right; right; auto].
  - intros [<-|Hx]; [left; reflexivity | right; auto].
Qed.

Lemma isspace_blank : isspace blank = true.
Proof. reflexivity. Qed.

Lemma halve_visible (s : str) :
  visible (replace [blank; blank] [blank] s) = visible s.
Proof.
  by_pairs s; try reflexivity.
  - unfold visible in *. simpl. exact IHrest.
  - unfold visible in *. simpl. rewrite IHtail. reflexivity.
Qed.

Lemma collapse_spaces_done (fuel : nat) (s : str) :
  (List.length s <= fuel)%nat ->
  contains [blank; blank] (collapse_spaces fuel s) = false.
Proof.
  revert s. induction fuel as [|n IH]; intros s Hlen; simpl.
  - destruct s; [reflexivity | simpl in Hlen; lia].
  - destruct (contains [blank; blank] s) eqn:Hs; [|exact Hs].
    apply IH. destruct (halve_length s) as [_ Hlt]. specialize (Hlt Hs). lia.
Qed.

Lemma collapse_spaces_enough (fuel more : nat) (s : str) :
  (List.length s <= fuel)%nat -> (List.length s <= more)%nat ->
  collapse_spaces more s = collapse_spaces fuel s.
Proof.
  revert more s. induction fuel as [|n IH]; intros more s Hfuel Hmore.
  - destruct s; [|simpl in Hfuel; lia]. destruct more; reflexivity.
  - destruct more as [|m]; simpl.
    + destruct s; [reflexivity | simpl in Hmore; lia].
    + destruct (contains [blank; blank] s) eqn:Hs; [|reflexivity].
      destruct (halve_length s) as [_ Hlt]. specialize (Hlt Hs).
      apply IH; lia.
Qed.

Lemma collapse_spaces_In (x : ascii) (fuel : nat) (s : str) :
  In x (collapse_spaces fuel s) -> In x s.
Proof.
  revert s. induction fuel as [|n IH]; intros s; simpl; [auto|].
  destruct (contains [blank; blank] s); [|auto].
  intros Hx. apply halve_In, IH, Hx.
Qed.

Lemma collapse_spaces_visible (fuel : nat) (s : str) :
  visible (collapse_spaces fuel s) = visible s.
Proof.
  revert s. induction fuel as [|n IH]; intros s; simpl; [reflexivity|].
  destruct (contains [blank; blank] s); [|reflexivity].
  rewrite IH. apply halve_visible.
Qed.

Lemma collapse_spaces_length (fuel : nat) (s : str) :
  (List.length (collapse_spaces fuel s) <= List.length s)%nat.
Proof.
  revert s. induction fuel as [|n IH]; intros s; simpl; [lia|].
  destruct (contains [blank; blank] s); [|lia].
  specialize (IH (replace [blank; blank] [blank] s)).
  destruct (halve_length s) as [Hle _]. lia.
Qed.

Lemma lstrip_split (s : str) :
  exists ws, s = ws ++ lstrip s /\ forallb isspace ws = true.
Proof.
  induction s as [|c rest (ws & E & Hws)]; simpl.
  - exists []. split; reflexivity.
  - destruct (isspace c) eqn:Hc.
    + exists (c :: ws). simpl. rewrite Hc, Hws, <- E. split; reflexivity.
    + exists []. split; reflexivity.
Qed.

Lemma rstrip_split (s : str) :
  exists ws, s = rstrip s ++ ws /\ forallb isspace ws = true.
Proof.
  induction s as [|c rest (ws & E & Hws)]; simpl.
  - exists []. split; reflexivity.
  - destruct (rstrip rest) as [|k kept] eqn:Hr.
    + simpl in E. destruct (isspace c) eqn:Hc.
      * exists (c :: ws). simpl. rewrite Hc, Hws, <- E. split; reflexivity.
      * exists rest. split; [reflexivity | rewrite E; exact Hws].
    + exists ws. rewrite E. split; [reflexivity | exact Hws].
Qed.

Lemma lstrip_starts (s : str) : starts_with_space (lstrip s) = false.
Proof.
  induction s as [|c rest IH]; simpl; [reflexivity|].
  destruct (isspace c) eqn:Hc; [exact IH | simpl; exact Hc].
Qed.

Lemma rstrip_starts (s : str) :
  starts_with_space s = false -> starts_with_space (rstrip s) = false.
Proof.
  destruct s as [|c rest]; simpl; [reflexivity|].
  intros Hc. destruct (rstrip rest); [rewrite Hc|]; simpl; exact Hc.
Qed.

Lemma rstrip_ends (s : str) : ends_with_space (rstrip s) = false.
Proof.
  induction s as [|c rest IH]; simpl; [reflexivity|].
  destruct (rstrip rest) as [|k kept].
  - destruct (isspace c) eqn:Hc; simpl; [reflexivity | exact Hc].
  - exact IH.
Qed.

Lemma lstrip_same (s : str) : starts_with_space s = false -> lstrip s = s.
Proof. destruct s as [|c rest]; simpl; [reflexivity | intros ->; reflexivity]. Qed.

Lemma rstrip_same (s : str) : ends_with_space s = false -> rstrip s = s.
Proof.
  induction s as [|c rest IH]; simpl; [reflexivity|].
  destruct rest as [|d rest'].
  - simpl. intros ->. reflexivity.
  - intros He. rewrite (IH He). reflexivity.
Qed.

Lemma visible_whitespace (ws : str) : forallb isspace ws = true -> visible ws = [].
Proof.
  induction ws as [|c ws IH]; simpl; [reflexivity|].
  intros H. apply andb_true_iff in H as [Hc Hws]. rewrite Hc. simpl. auto.
Qed.

Lemma strip_split (s : str) :
  exists left right,
    s = left ++ strip s ++ right
    /\ forallb isspace left = true /\ forallb isspace right = true.
Proof.
  destruct (lstrip_split s) as (left & El & Hl).
  destruct (rstrip_split (lstrip s)) as (right & Er & Hr).
  exists left, right. unfold strip. rewrite <- Er, <- El. auto.
Qed.

Lemma contains_character (x : ascii) (s : str) :
  contains [x] s = true <-> In x s.
Proof.
  rewrite contains_spec. split.
  - intros (before & after & ->). apply in_elt.
  - intros Hx. apply in_split in Hx as (before & after & ->).
    exists before, after. reflexivity.
Qed.

Lemma newline_replaced (r : str) : ~ In newline (replace [newline] [blank] r).
Proof.
  rewrite replace_character. intros Hn.
  apply in_map_iff in Hn as (c & Hc & _).
  destruct (Ascii.eqb newline c) eqn:E; [discriminate Hc|].
  subst c. rewrite Ascii.eqb_refl in E. discriminate E.
Qed.

Lemma newline_replaced_visible (r : str) :
  visible (replace [newline] [blank] r) = visible r.
Proof.
  rewrite replace_character. unfold visible.
  induction r as [|c rest IH]; [reflexivity|].
  cbn [map filter]. rewrite IH.
  destruct (Ascii.eqb newline c) eqn:E; [|reflexivity].
  apply Ascii.eqb_eq in E. subst c. reflexivity.
Qed.

Lemma newline_replaced_same (s : str) :
  contains [newline] s = false -> replace [newline] [blank] s = s.
Proof.
  intros Hn. rewrite replace_character.
  rewrite <- (map_id s) at 2. apply map_ext_in. intros c Hc.
  destruct (Ascii.eqb newline c) eqn:E; [|reflexivity].
  apply Ascii.eqb_eq in E. subst c.
  apply contains_character in Hc. congruence.
Qed.

Lemma compact_repr_no_newline (r : str) : contains [newline] (_compact_repr r) = false.
Proof.
  destruct (contains [newline] (_compact_repr r)) eqn:Hn; [|reflexivity].
  exfalso. apply contains_character in Hn. unfold _compact_repr in Hn.
  cbv zeta in Hn.
  destruct (strip_split
              (collapse_spaces (List.length (replace [newline] [blank] r))
                 (replace [newline] [blank] r))) as (left & right & E & _).
  apply (newline_replaced r).
  eapply collapse_spaces_In. rewrite E.
  apply in_or_app. right. apply in_or_app. left. exact Hn.
Qed.

Lemma compact_repr_no_blanks (r : str) :
  contains [blank; blank] (_compact_repr r) = false.
Proof.
  destruct (contains [blank; blank] (_compact_repr r)) eqn:Hb; [|reflexivity].
  unfold _compact_repr in Hb. cbv zeta in Hb.
  destruct (strip_split
              (collapse_spaces (List.length (replace [newline] [blank] r))
                 (replace [newline] [blank] r))) as (left & right & E & _).
  apply (contains_inside _ left _ right) in Hb. rewrite <- E in Hb.
  rewrite collapse_spaces_done in Hb; [discriminate Hb | lia].
Qed.

Lemma compact_repr_ends (r : str) :
  starts_with_space (_compact_repr r) = false
  /\ ends_with_space (_compact_repr r) = false.
Proof.
  unfold _compact_repr, strip. cbv zeta. split.
  - apply rstrip_starts, lstrip_starts.
  - apply rstrip_ends.
Qed.

Lemma compact_repr_unchanged (s : str) :
  contains [newline] s = false ->
  contains [blank; blank] s = false ->
  starts_with_space s = false ->
  ends_with_space s = false ->
  _compact_repr s = s.
Proof.
  intros Hn Hb Hs He. unfold _compact_repr. cbv zeta.
  rewrite (newline_replaced_same s Hn).
  assert (Hloop : collapse_spaces (List.length s) s = s).
  { destruct (List.length s); simpl; [reflexivity | rewrite Hb; reflexivity]. }
  rewrite Hloop. unfold strip.
  rewrite (lstrip_same s Hs). apply rstrip_same, He.
Qed.

(** [_compact_repr] returns a string in compact form: it holds no newline
    and no two blanks in a row, and neither begins nor ends with a whitespace
    character. *)
Theorem compact_repr_is_compact (repr_m : str) :
  is_compact (_compact_repr repr_m) = true.
Proof.
  unfold is_compact.
  rewrite compact_repr_no_newline, compact_repr_no_blanks.
  destruct (compact_repr_ends repr_m) as [-> ->]. reflexivity.
Qed.

(** A string already in compact form is returned as it is. *)
Theorem compact_repr_of_compact (s : str) :
  is_compact s = true -> _compact_repr s = s.
Proof.
  unfold is_compact. intros H.
  apply andb_true_iff in H as [H He].
  apply andb_true_iff in H as [H Hs].
  apply andb_true_iff in H as [Hn Hb].
  apply negb_true_iff in Hn, Hb, Hs, He.
  apply compact_repr_unchanged; assumption.
Qed.

Lemma compact_repr_of_compact_witness :
  is_compact tensor_undefined_dim_repr = true
  /\ _compact_repr tensor_undefined_dim_repr = tensor_undefined_dim_repr.
Proof.
  split; [reflexivity|].
  apply (compact_repr_of_compact tensor_undefined_dim_repr). reflexivity.
Defined.

(** [_compact_repr] is idempotent. *)
Theorem compact_repr_idempotent (repr_m : str) :
  _compact_repr (_compact_repr repr_m) = _compact_repr repr_m.
Proof.
  destruct (compact_repr_ends repr_m) as [Hs He].
  apply compact_repr_unchanged;
    auto using compact_repr_no_newline, compact_repr_no_blanks.
Qed.

(** [_compact_repr] touches whitespace only: the characters that are not
    whitespace come out the same and in the same order, and the result is
    never longer than the input. *)
Theorem compact_repr_keeps_visible (repr_m : str) :
  visible (_compact_repr repr_m) = visible repr_m
  /\ (List.length (_compact_repr repr_m) <= List.length repr_m)%nat.
Proof.
  unfold _compact_repr. cbv zeta.
  set (s1 := replace [newline] [blank] repr_m).
  set (s2 := collapse_spaces (List.length s1) s1).
  destruct (strip_split s2) as (left & right & E & Hl & Hr).
  split.
  - rewrite <- (newline_replaced_visible repr_m). fold s1.
    rewrite <- (collapse_spaces_visible (List.length s1) s1). fold s2.
    rewrite E at 2. unfold visible. rewrite !filter_app.
    fold (visible left). fold (visible right).
    rewrite (visible_whitespace left Hl), (visible_whitespace right Hr).
    rewrite app_nil_r. reflexivity.
  - assert (H1 : List.length s1 = List.length repr_m).
    { unfold s1. rewrite replace_character. apply length_map. }
    pose proof (collapse_spaces_length (List.length s1) s1) as H2. fold s2 in H2.
    assert (H3 : (List.length (strip s2) <= List.length s2)%nat).
    { rewrite E at 2. rewrite !length_app. lia. }
    lia.
Qed.

(** The loop [while '  ' in s: s = s.replace('  ', ' ')] stops within
    [len(s)] iterations: with any larger number of iterations allowed it
    returns the same string, in which no two blanks are left in a row. *)
Theorem collapse_spaces_terminates (fuel : nat) (s : str) :
  (List.length s <= fuel)%nat ->
  collapse_spaces fuel s = collapse_spaces (List.length s) s
  /\ contains [blank; blank] (collapse_spaces fuel s) = false.
Proof.
  intros Hfuel. split.
  - apply collapse_spaces_enough; lia.
  - apply collapse_spaces_done, Hfuel.
Qed.

Lemma collapse_spaces_terminates_witness :
  (List.length (list_ascii_of_string "a     b") <= 100)%nat
  /\ collapse_spaces 100 (list_ascii_of_string "a     b")
     = list_ascii_of_string "a b".
Proof.
  split; [simpl; lia|].
  rewrite (proj1 (collapse_spaces_terminates 100
                    (list_ascii_of_string "a     b") ltac:(simpl; lia))).
  reflexivity.
Defined.

(** ** The tracing executor as a decorator *)

Section Decorator_properties.
Context {V R X H : Type} {target_class : Executor V R X H}.

Local Abbreviation Self := (TracingExecutor V R X).
Local Abbreviation Wrapped := (TracingExecutorValue H).

(** The wrapper is transparent: the target goes through the states, and
    gives the answers, it would have gone through and given had the same
    calls been issued to it directly on its own handles; the wrapper hands
    these answers back, a returned handle wrapped around the target's. *)
Theorem tracing_is_transparent (calls : list (call V Wrapped)) (self : Self) :
  run (map unwrap calls) (_target self)
  = (_target (fst (run calls self)), map unwrap_outcome (snd (run calls self))).
Proof.
  revert self. induction calls as [|c rest IH]; intros self; [reflexivity|].
  cbn [map]. rewrite !run_cons. cbn [fst snd map].
  destruct (perform_delegates c self) as [Ht Ho].
  rewrite <- Ht, (IH (fst (perform c self))). cbn [fst snd].
  f_equal. f_equal.
  destruct (snd (perform (unwrap c) (_target self))) as [e|tv| |r].
  - rewrite Ho. reflexivity.
  - destruct Ho as (w & -> & <-). reflexivity.
  - rewrite Ho. reflexivity.
  - rewrite Ho. reflexivity.
Qed.

(** A call that raises through the wrapper raises the exception its target
    raised, and leaves the trace and the counter of the wrapper as they
    were. *)
Theorem raising_call_leaves_no_mark (c : call V Wrapped) (self : Self) (e : exn) :
  snd (perform c self) = Raised e ->
  snd (perform (unwrap c) (_target self)) = Raised e
  /\ _trace (fst (perform c self)) = _trace self
  /\ _last_used_index (fst (perform c self)) = _last_used_index self.
Proof.
  intros Hraised.
  destruct (perform_tracing c self) as [Htrace Hindex].
  destruct (perform_delegates c self) as [_ Ho].
  rewrite Hraised in Htrace, Hindex.
  repeat split.
  - destruct (snd (perform (unwrap c) (_target self))) as [e'|tv| |r].
    + congruence.
    + destruct Ho as (w & Hw & _). congruence.
    + congruence.
    + congruence.
  - rewrite Htrace.
    destruct c as [v [t|] | comp [a|] | elements | source [i|] [n|] | | h];
      apply app_nil_r.
  - exact Hindex.
Qed.

(** The trace is only ever appended to and the counter never goes back:
    after any calls the old trace is a prefix of the new one, and the counter
    has advanced by the number of handles returned. *)
Theorem trace_is_append_only (calls : list (call V Wrapped)) (self : Self) :
  (exists added, _trace (fst (run calls self)) = _trace self ++ added)
  /\ _last_used_index self <= _last_used_index (fst (run calls self))
  /\ _last_used_index (fst (run calls self))
     = _last_used_index self
       + Z.of_nat (List.length (returned_handles (snd (run calls self)))).
Proof.
  destruct (run_tracing calls self) as (_ & Hc & Ht). cbv zeta in Hc, Ht.
  split; [eexists; exact Ht|]. split; [lia | exact Hc].
Qed.

Lemma perform_outputs (c : call V Wrapped) (self : Self) :
  trace_outputs (recorded c (snd (perform c self)))
  = map (@index H) (returned_handles [snd (perform c self)]).
Proof.
  destruct c as [v [t|] | comp [a|] | elements | source [i|] [n|] | | h];
    unfold perform, observe; simpl;
    unfold TracingExecutor_create_value, TracingExecutor_create_call,
      TracingExecutor_create_tuple, TracingExecutor_create_selection,
      TracingExecutor_close, TracingExecutorValue_compute,
      bind, await, _get_new_value_index, trace_append, ret; simpl;
    match goal with
    | |- context [let (_, _) := ?m (_target ?s) in _] =>
        destruct (m (_target s)) as [? [?|?]]; reflexivity
    end.
Qed.

Lemma trace_outputs_app (a b : list (entry V R)) :
  trace_outputs (a ++ b) = trace_outputs a ++ trace_outputs b.
Proof. unfold trace_outputs. apply flat_map_app. Qed.

Lemma run_outputs (calls : list (call V Wrapped)) (self : Self) :
  trace_outputs
    (flat_map (fun co => recorded (fst co) (snd co))
       (combine calls (snd (run calls self))))
  = map (@index H) (returned_handles (snd (run calls self))).
Proof.
  revert self. induction calls as [|c rest IH]; intros self; [reflexivity|].
  rewrite run_cons. cbn [fst snd combine flat_map].
  rewrite (returned_handles_cons (snd (perform c self))
             (snd (run rest (fst (perform c self))))), map_app.
  rewrite trace_outputs_app, (IH (fst (perform c self))), perform_outputs.
  reflexivity.
Qed.

(** The indices read off the trace, entry after entry, are the indices of
    the handles the executor has returned, in the order it returned them:
    1, 2, ... up to the counter. *)
Theorem trace_outputs_are_the_indices
    (target : X) (calls : list (call V Wrapped)) :
  let final := fst (run calls (TracingExecutor_init target)) in
  let outs := snd (run calls (TracingExecutor_init target)) in
  trace_outputs (_trace final) = map (@index H) (returned_handles outs)
  /\ trace_outputs (_trace final)
     = consecutive 1 (Z.to_nat (_last_used_index final)).
Proof.
  cbv zeta.
  destruct (run_tracing calls (TracingExecutor_init target)) as (Hi & Hc & Ht).
  cbv zeta in Hi, Hc, Ht. simpl _trace in Ht at 2. simpl app in Ht.
  simpl _last_used_index in Hi, Hc.
  rewrite Ht, run_outputs. split; [reflexivity|].
  rewrite Hi, Hc. f_equal. lia.
Qed.

(** [create_selection], when the target returns: the entry records the
    index of the source, then the index selector when one was given, even
    beside a name, the name when only a name was given and [None] when
    neither was, then the index of the handle returned. *)
Theorem create_selection_trace_entry
    (source : Wrapped) (index_arg : option Z) (name : option string)
    (self : Self) (target' : X) (target_val : H) :
  create_selection (value source) index_arg name (_target self)
  = (target', inr target_val) ->
  let i := _last_used_index self + 1 in
  TracingExecutor_create_selection source index_arg name self
  = ({| _target := target';
        _last_used_index := i;
        _trace :=
          _trace self
          ++ [[Str "create_selection"; Int (index source);
               recorded_selector index_arg name; Int i]] |},
     inr {| index := i; value := target_val |}).
Proof.
  intros Htarget. cbv zeta.
  unfold TracingExecutor_create_selection, bind, await, _get_new_value_index,
    trace_append, ret. simpl.
  rewrite Htarget. destruct index_arg, name; reflexivity.
Qed.
End Decorator_properties.

Lemma raising_call_leaves_no_mark_witness :
  snd (perform (Create_selection handle_1 (Some 0) None) fresh_tracer)
  = Raised SelectionError
  /\ _trace (fst (perform (Create_selection handle_1 (Some 0) None) fresh_tracer))
     = []
  /\ _last_used_index
       (fst (perform (Create_selection handle_1 (Some 0) None) fresh_tracer))
     = 0.
Proof.
  assert (Hraised :
            snd (perform (Create_selection handle_1 (Some 0) None) fresh_tracer)
            = Raised SelectionError) by reflexivity.
  split; [exact Hraised|].
  exact (proj2 (raising_call_leaves_no_mark
                  (Create_selection handle_1 (Some 0) None) fresh_tracer
                  SelectionError Hraised)).
Defined.

Lemma create_selection_trace_entry_witness :
  create_selection (value handle_3) (Some 1) None (_target fresh_tracer)
  = (Contract_init,
     inr {| type_signature := int32;
            expression := Emb_selection (expression (value handle_3)) 1 |})
  /\ _trace
       (fst (TracingExecutor_create_selection handle_3 (Some 1) None fresh_tracer))
     = [[Str "create_selection"; Int 3; Int 1; Int 1]].
Proof.
  assert (Htarget :
            create_selection (value handle_3) (Some 1) None (_target fresh_tracer)
            = (Contract_init,
               inr {| type_signature := int32;
                      expression :=
                        Emb_selection (expression (value handle_3)) 1 |}))
    by reflexivity.
  split; [exact Htarget|].
  rewrite (create_selection_trace_entry handle_3 (Some 1) None fresh_tracer
             Contract_init _ Htarget).
  reflexivity.
Defined.

(** ** The dummy identity lambda *)

(** [create_dummy_identity_lambda_computation]: for a constructible type
    [t], the computation is a lambda of declared type [(t -> t)] whose
    parameter is named ['a'] and whose body is the reference to that same
    name, of type [t]. *)
Theorem dummy_identity_lambda_computation (G : Type) (t : Type_) :
  constructible t = true ->
  let comp := create_dummy_identity_lambda_computation (G := G) t in
  deserialize_type (computation_type comp) = inr (FunctionType (Some t) t)
  /\ exists body,
      computation_body comp = pb_lambda "a" body
      /\ computation_body body = pb_reference "a"
      /\ deserialize_type (computation_type body) = inr t.
Proof.
  intros Hc. cbv zeta. split.
  - unfold create_dummy_identity_lambda_computation, unary_op, computation_type.
    apply deserialize_serialize_type. simpl. rewrite Hc. reflexivity.
  - eexists. split; [reflexivity|]. split; [reflexivity|].
    apply deserialize_serialize_type, Hc.
Qed.

Lemma dummy_identity_lambda_computation_witness :
  constructible int32 = true
  /\ deserialize_type
       (computation_type (create_dummy_identity_lambda_computation (G := unit) int32))
     = inr (FunctionType (Some int32) int32).
Proof.
  split; [reflexivity|].
  exact (proj1 (dummy_identity_lambda_computation unit int32 eq_refl)).
Defined.

(** ** Selection and closure through the wrapper *)

Section Delegated_contracts.
Context {V R X H : Type} {target_class : Executor V R X H}.

Local Abbreviation Self := (TracingExecutor V R X).
Local Abbreviation Wrapped := (TracingExecutorValue H).

(** C5, as the code has it. [TracingExecutor.create_selection] checks
    nothing itself: whatever the selectors, it fails exactly when the
    [create_selection] of its target fails, with the target's exception
    ([SelectionError] when the target raises [SelectionError]) and without
    touching the trace or the counter; when the target returns, it returns
    the target's handle under the next index. *)
Theorem create_selection_fails_as_its_target
    (source : Wrapped) (index_arg : option Z) (name : option string)
    (self : Self) :
  (forall e,
      snd (TracingExecutor_create_selection source index_arg name self) = inl e
      <-> snd (create_selection (value source) index_arg name (_target self))
          = inl e)
  /\ (forall e,
         snd (create_selection (value source) index_arg name (_target self))
         = inl e ->
         _trace (fst (TracingExecutor_create_selection source index_arg name self))
         = _trace self
         /\ _last_used_index
              (fst (TracingExecutor_create_selection source index_arg name self))
            = _last_used_index self)
  /\ (forall target_val,
         snd (create_selection (value source) index_arg name (_target self))
         = inr target_val ->
         snd (TracingExecutor_create_selection source index_arg name self)
         = inr {| index := _last_used_index self + 1; value := target_val |}).
Proof.
  unfold TracingExecutor_create_selection, bind, await, _get_new_value_index,
    trace_append, ret. simpl.
  destruct (create_selection (value source) index_arg name (_target self))
    as [target' [e'|target_val]]; simpl.
  - split; [intros e; split; intros E; inversion E; reflexivity|].
    split; [intros e _; auto|].
    intros tv E. discriminate E.
  - split; [intros e; split; intros E; discriminate E|].
    split; [intros e E; discriminate E|].
    intros tv E. inversion E. reflexivity.
Qed.

(** C6, as the code has it. A tracing executor keeps no closed state of
    its own: [close] is the target's [close], and any call through the
    wrapper, before or after [close], raises exactly when the same call on
    the target raises, with the same exception. So over a target that, once
    closed, answers every other call with [ClosedExecutorError] and every
    further [close] by returning, the wrapper does the same. *)
Theorem closed_contract_is_the_targets (self : Self) :
  (forall (c : call V Wrapped) (e : exn),
      snd (perform c self) = Raised e
      <-> snd (perform (unwrap c) (_target self)) = Raised e)
  /\ _target (fst (perform Close self)) = fst (perform Close (_target self))
  /\ (snd (perform Close (_target self)) = Done ->
      dead (fst (perform Close (_target self))) ->
      forall calls : list (call V Wrapped),
        snd (run (Close :: calls) self) = Done :: map after_close calls).
Proof.
  split; [|split].
  - intros c e. destruct (perform_delegates c self) as [_ Ho].
    destruct (snd (perform (unwrap c) (_target self))) as [e'|tv| |r].
    + rewrite Ho. split; intros E; inversion E; reflexivity.
    + destruct Ho as (w & -> & _). split; discriminate.
    + rewrite Ho. split; discriminate.
    + rewrite Ho. split; discriminate.
  - exact (proj1 (perform_delegates Close self)).
  - intros Hdone Hdead calls.
    destruct (perform_delegates Close self) as [Ht Ho].
    change (unwrap (H := H) (V := V) Close) with (@Close V H) in Ht, Ho.
    rewrite Hdone in Ho. rewrite <- Ht in Hdead.
    rewrite run_cons. cbn [snd]. rewrite Ho.
    rewrite (tracing_dead _ Hdead calls). reflexivity.
Qed.
End Delegated_contracts.

(** Over a target that accepts everything, a selection with both an index
    and a name returns a handle. *)
Lemma accepted_selection_returns :
  ~ (forall (self : TracingExecutor Z Z unit) (source : TracingExecutorValue Z)
            (index_arg : option Z) (name : option string),
        (index_arg <> None /\ name <> None) \/ (index_arg = None /\ name = None) ->
        snd (TracingExecutor_create_selection source index_arg name self)
        = inl SelectionError).
Proof.
  intros Hclaim.
  assert (Hboth : (Some 0 <> None /\ Some "x" <> None)
                  \/ (Some 0 = @None Z /\ Some "x" = @None string))
    by (left; split; discriminate).
  specialize (Hclaim accepting_tracer accepted_handle (Some 0) (Some "x") Hboth).
  discriminate Hclaim.
Qed.

Example accepted_selection_trace :
  TracingExecutor_create_selection accepted_handle (Some 0) (Some "x")
    accepting_tracer
  = ({| _target := tt;
        _last_used_index := 1;
        _trace := [[Str "create_selection"; Int 7; Int 0; Int 1]] |},
     inr {| index := 1; value := 0 |}).
Proof. reflexivity. Qed.

(** Over a target that accepts everything, a value can be made after
    [close]. *)
Lemma accepted_after_close :
  ~ (forall (self : TracingExecutor Z Z unit)
            (calls : list (call Z (TracingExecutorValue Z))),
        snd (run (Close :: calls) self) = Done :: map after_close calls).
Proof.
  intros Hclaim.
  specialize (Hclaim accepting_tracer [Create_value 5 None]).
  discriminate Hclaim.
Qed.

Example accepted_after_close_outcomes :
  snd (run [Close; Create_value 5 None] accepting_tracer)
  = [Done; Returned {| index := 1; value := 5 |}].
Proof. reflexivity. Qed.

Lemma closed_contract_is_the_targets_witness :
  snd (perform Close (_target fresh_tracer)) = Done
  /\ dead (fst (perform Close (_target fresh_tracer)))
  /\ snd (run [Close; Create_value ten None;
               Create_selection handle_3 (Some 0) (Some "x");
               Compute handle_1; Close] fresh_tracer)
     = [Done; Raised ClosedExecutorError; Raised ClosedExecutorError;
        Raised ClosedExecutorError; Done].
Proof.
  assert (Hdone : snd (perform Close (_target fresh_tracer)) = Done)
    by reflexivity.
  assert (Hdead : dead (fst (perform Close (_target fresh_tracer))))
    by (apply contract_dead; reflexivity).
  split; [exact Hdone|]. split; [exact Hdead|].
  exact (proj2 (proj2 (closed_contract_is_the_targets fresh_tracer))
           Hdone Hdead
           [Create_value ten None;
            Create_selection handle_3 (Some 0) (Some "x");
            Compute handle_1; Close]).
Defined.

Example selection_error_through_the_wrapper :
  snd (TracingExecutor_create_selection handle_3 (Some 0) (Some "x") fresh_tracer)
  = inl SelectionError.
Proof. reflexivity. Qed.
